(** * myia: A-normal form transformation and the IR graph

    A shallow embedding of [myia/compile.py] (the A-normal transformer and
    the Let collapser) and of [myia/ir/graph.py] (IR nodes with
    bidirectional edges, their mutation primitives, and [toposort]),
    followed by the properties established about them. *)

From Stdlib Require Import Ascii String.
From stdpp Require Import gmap strings list pretty ssreflect.

#[local] Set Warnings "-register-all,-rewrite-rw,-clear-no-such-hyp".

Local Open Scope string_scope.
Local Open Scope list_scope.
Local Open Scope nat_scope.

(** ** Python exceptions and results *)

Inductive exn :=
  | AttributeError
  | TypeError
  | ValueError
  | IndexError
  | KeyError
  | AssertionError
  | UnsupportedNode
  | CycleDetected
  | OutOfFuel.

Inductive result (A : Type) :=
  | Ok (a : A)
  | Raise (e : exn).
Arguments Ok {A} a.
Arguments Raise {A} e.

Global Instance exn_eq_dec : EqDecision exn.
Proof. solve_decision. Defined.

Global Instance result_eq_dec `{EqDecision A} : EqDecision (result A).
Proof. solve_decision. Defined.

Global Instance result_ret : MRet result := λ A a, Ok a.
Global Instance result_bind : MBind result := λ A B f m,
  match m with
  | Ok a => f a
  | Raise e => Raise e
  end.

(** ** Symbols and the name generator *)

(** Modelled from the spec: the symbol class of [myia.ast] is not part of
    the sources.  A symbol carries a label that is either a string or,
    for a symbol derived from another one, that symbol together with the
    marker of the derivation; the namespace and the version are what the
    generator of a lexical unit stamps on the names it mints. *)
Inductive symbol :=
  | SymStr (label : string) (namespace : string) (version : nat)
  | SymRel (label : symbol) (relation : string) (namespace : string)
           (version : nat).

Global Instance symbol_eq_dec : EqDecision symbol.
Proof. solve_decision. Defined.

Definition sym_namespace (s : symbol) : string :=
  match s with
  | SymStr _ ns _ => ns
  | SymRel _ _ ns _ => ns
  end.

Definition sym_version (s : symbol) : nat :=
  match s with
  | SymStr _ _ v => v
  | SymRel _ _ _ v => v
  end.

(** Modelled from the spec: [myia.front.GenSym] is not part of the
    sources.  The spec describes it as an append-only counter scoped to a
    lexical unit that mints a fresh name from a base string, or from an
    existing symbol plus a disambiguation marker. *)
Record GenSym := MkGenSym {
  gen_namespace : string;
  gen_counter : nat
}.

Definition GenSym_sym (g : GenSym) (name : string) : symbol * GenSym :=
  (SymStr name (gen_namespace g) (gen_counter g),
   MkGenSym (gen_namespace g) (S (gen_counter g))).

Definition GenSym_rel (g : GenSym) (orig : symbol) (marker : string)
  : symbol * GenSym :=
  (SymRel orig marker (gen_namespace g) (gen_counter g),
   MkGenSym (gen_namespace g) (S (gen_counter g))).

(** A symbol is known to a generator when the generator can no longer
    mint it: it lives in another namespace, or its version is behind the
    counter. *)
Definition known (g : GenSym) (s : symbol) : Prop :=
  sym_namespace s ≠ gen_namespace g ∨ sym_version s < gen_counter g.

(** ** The IR graph ([myia/ir/graph.py]) *)

(** Roles.  [FN]: function used to compute the node; [IN idx]: the
    [idx]-th input of the computation. *)
Inductive role :=
  | FN
  | IN (index : nat).

Global Instance role_eq_dec : EqDecision role.
Proof. solve_decision. Defined.

Global Instance role_countable : Countable role.
Proof.
  refine (inj_countable'
            (λ r, match r with FN => None | IN i => Some i end)
            (λ o, match o with None => FN | Some i => IN i end) _).
  by intros [].
Defined.

Inductive Literal :=
  | LitInt (z : Z)
  | LitStr (s : string)
  | LitBool (b : bool).

Inductive NodeValue :=
  | NO_VALUE
  | ConstValue (v : Literal)
  | BuiltinValue (s : symbol)
  | GraphValue (g : nat).

(** Nodes are heap objects compared by identity; they are addressed here
    by a handle in a store.  [fn] and [inputs] are the outgoing edges,
    [users] the incoming ones as (role, node) pairs. *)
Record IRNode := MkIRNode {
  graph : option nat;
  tag : symbol;
  fn : option nat;
  inputs : list (option nat);
  users : gset (role * nat);
  value : NodeValue
}.

Abbreviation store := (gmap nat IRNode).

(** [IRNode(graph, tag, value)] *)
Definition new_node (g : option nat) (t : symbol) (v : NodeValue) : IRNode :=
  MkIRNode g t None [] ∅ v.

Definition set_fn (n : IRNode) (f : option nat) : IRNode :=
  MkIRNode (graph n) (tag n) f (inputs n) (users n) (value n).
Definition set_inputs (n : IRNode) (l : list (option nat)) : IRNode :=
  MkIRNode (graph n) (tag n) (fn n) l (users n) (value n).
Definition set_users (n : IRNode) (u : gset (role * nat)) : IRNode :=
  MkIRNode (graph n) (tag n) (fn n) (inputs n) u (value n).

Definition is_input (n : IRNode) : bool :=
  match fn n, value n with
  | None, NO_VALUE => true
  | _, _ => false
  end.

Definition is_computation (n : IRNode) : bool :=
  match fn n with
  | Some _ => true
  | None => false
  end.

Definition is_constant (n : IRNode) : bool :=
  match value n with
  | NO_VALUE => false
  | _ => true
  end.

Definition is_graph (n : IRNode) : bool :=
  match value n with
  | GraphValue _ => true
  | _ => false
  end.

(** [successors]: the set of nodes this node depends on. *)
Definition successors (n : IRNode) : gset nat :=
  list_to_set (omap id (fn n :: inputs n)).

(** [node[role]]; indexing past the end of [inputs] raises. *)
Definition getitem (n : IRNode) (r : role) : option (option nat) :=
  match r with
  | FN => Some (fn n)
  | IN i => inputs n !! i
  end.

(** Atomic operations: [('link', from, to, role)],
    [('unlink', from, to, role)] and [('redirect', from, to, None)]. *)
Inductive operation :=
  | Link (n1 n2 : nat) (r : role)
  | Unlink (n1 n2 : nat) (r : role)
  | RedirectOp (n1 : nat) (n2 : option nat).

(** [set_succ_operations]; [None] is the [IndexError] of
    [self.inputs[role.index]]. *)
Definition set_succ_operations (σ : store) (self : nat) (r : role)
    (node : option nat) : option (list operation) :=
  s ← σ !! self;
  unl ← getitem s r;
  Some
    (match unl with
     | Some u =>
         if decide (unl = node) then []
         else Unlink self u r ::
              match node with
              | Some n => [Link self n r]
              | None => []
              end
     | None =>
         match node with
         | Some n => [Link self n r]
         | None => []
         end
     end).

(** [for i, inp in enumerate(l): if inp is not None: rval.append(op i inp)],
    counting from [i]. *)
Fixpoint enumerate_ops (op : nat → nat → operation) (i : nat)
    (l : list (option nat)) : list operation :=
  match l with
  | [] => []
  | Some inp :: l' => op i inp :: enumerate_ops op (S i) l'
  | None :: l' => enumerate_ops op (S i) l'
  end.

Definition set_app_operations (σ : store) (self : nat) (f : option nat)
    (ins : list (option nat)) : option (list operation) :=
  rval ← set_succ_operations σ self FN f;
  s ← σ !! self;
  Some
    (rval ++
     match f with
     | Some _ =>
         enumerate_ops (λ i inp, Unlink self inp (IN i)) 0 (inputs s) ++
         enumerate_ops (λ i inp, Link self inp (IN i)) 0 ins
     | None => []
     end).

(** The body of the loop of [redirect_operations], for the users taken
    in the order [us]. *)
Fixpoint redirect_loop (σ : store) (us : list (role * nat))
    (node : option nat) : option (list operation) :=
  match us with
  | [] => Some []
  | (r, n) :: us' =>
      ops ← set_succ_operations σ n r node;
      rest ← redirect_loop σ us' node;
      Some (ops ++ rest)
  end.

(** [redirect_operations] iterating over the users in the order [us];
    Python leaves the order of [set(self.users)] open. *)
Definition redirect_operations_in (σ : store) (us : list (role * nat))
    (self : nat) (node : option nat) : option (list operation) :=
  rval ← redirect_loop σ us node;
  Some (rval ++ [RedirectOp self node]).

Definition redirect_operations (σ : store) (self : nat) (node : option nat)
  : option (list operation) :=
  s ← σ !! self;
  redirect_operations_in σ (elements (users s)) self node.

(** [n1.process_operation(op, n2, role)]; [None] is a failed assertion,
    the [KeyError] of [users.remove], or the [IndexError] of
    [self.inputs[idx]]. *)
Definition process_operation (σ : store) (o : operation) : option store :=
  match o with
  | Link self node r =>
      s ← σ !! self;
      s' ← match r with
           | FN =>
               match fn s with
               | None => Some (set_fn s (Some node))
               | Some _ => None
               end
           | IN idx =>
               let nin := length (inputs s) in
               let ins :=
                 if decide (nin ≤ idx)
                 then inputs s ++ replicate (idx - nin + 1) None
                 else inputs s in
               match ins !! idx with
               | Some None => Some (set_inputs s (<[idx := Some node]> ins))
               | _ => None
               end
           end;
      let σ1 := <[self := s']> σ in
      n ← σ1 !! node;
      Some (<[node := set_users n (users n ∪ {[(r, self)]})]> σ1)
  | Unlink self node r =>
      s ← σ !! self;
      s' ← match r with
           | FN =>
               if decide (fn s = Some node) then Some (set_fn s None)
               else None
           | IN idx =>
               if decide (inputs s !! idx = Some (Some node))
               then Some (set_inputs s (<[idx := None]> (inputs s)))
               else None
           end;
      let σ1 := <[self := s']> σ in
      n ← σ1 !! node;
      if decide ((r, self) ∈ users n)
      then Some (<[node := set_users n (users n ∖ {[(r, self)]})]> σ1)
      else None
  | RedirectOp _ _ => Some σ
  end.

(** [_commit]: the operations are computed first, then applied in order. *)
Fixpoint apply_operations (σ : store) (ops : list operation) : option store :=
  match ops with
  | [] => Some σ
  | o :: ops' => σ' ← process_operation σ o; apply_operations σ' ops'
  end.

Definition commit (σ : store) (ops : option (list operation)) : option store :=
  l ← ops; apply_operations σ l.

Definition set_succ (σ : store) (self : nat) (r : role) (node : option nat)
  : option store :=
  commit σ (set_succ_operations σ self r node).

Definition set_app (σ : store) (self : nat) (f : option nat)
    (ins : list (option nat)) : option store :=
  commit σ (set_app_operations σ self f ins).

Definition redirect (σ : store) (self : nat) (new_node : option nat)
  : option store :=
  commit σ (redirect_operations σ self new_node).

Definition redirect_in (σ : store) (us : list (role * nat)) (self : nat)
    (new_node : option nat) : option store :=
  commit σ (redirect_operations_in σ us self new_node).

Definition subsume (σ : store) (self : nat) (node : nat) : option store :=
  redirect σ node (Some self).

Record IRGraph := MkIRGraph {
  parent : option nat;
  graph_inputs : list nat;
  output : option nat
}.

(** [IRGraph.replace] *)
Definition replace (σ : store) (g : IRGraph) (node1 : nat)
    (node2 : option nat) : option (store * IRGraph) :=
  σ' ← redirect σ node1 node2;
  Some (σ',
        if decide (output g = Some node1)
        then MkIRGraph (parent g) (graph_inputs g) node2
        else g).

(** *** [toposort] *)

(** The local variables of [toposort].  An entry [pred[succ] = None] is
    stored as [Some None]. *)
Record ts_state := MkTs {
  pred : gmap nat (option (gset nat));
  ready : gset nat;
  processed : gset nat;
  results : list nat
}.

(** One turn of [for succ in node.successors()]. *)
Definition visit_succ (σ : store) (node : nat) (st : ts_state) (succ : nat)
  : result ts_state :=
  match σ !! succ with
  | None => Raise AttributeError
  | Some s =>
      let pred1 :=
        match pred st !! succ with
        | None => <[succ := Some (set_map snd (users s))]> (pred st)
        | Some _ => pred st
        end in
      match pred1 !! succ with
      | Some (Some d) =>
          if decide (node ∈ d) then
            let d' := d ∖ {[node]} in
            if decide (size d' = 0)
            then Ok (MkTs (<[succ := None]> pred1) (ready st ∪ {[succ]})
                          (processed st) (results st))
            else Ok (MkTs (<[succ := Some d']> pred1) (ready st)
                          (processed st) (results st))
          else Raise KeyError
      | _ => Raise AttributeError
      end
  end.

Fixpoint visit_succs (σ : store) (node : nat) (st : ts_state)
    (succs : list nat) : result ts_state :=
  match succs with
  | [] => Ok st
  | succ :: succs' =>
      st' ← visit_succ σ node st succ; visit_succs σ node st' succs'
  end.

(** The body of [while ready] once the node [node], whose record is
    [n], has been popped; [succs] is the order in which the set
    [node.successors()] is iterated. *)
Definition toposort_body_in (σ : store) (node : nat) (n : IRNode)
    (st : ts_state) (succs : list nat) : result ts_state :=
  if negb (is_computation n) then Ok st
  else if decide (node ∈ processed st) then Raise CycleDetected
  else
    visit_succs σ node
      (MkTs (pred st) (ready st) (processed st ∪ {[node]})
            (results st ++ [node]))
      succs.

Definition toposort_body (σ : store) (node : nat) (st : ts_state)
  : result ts_state :=
  match σ !! node with
  | None => Raise AttributeError
  | Some n => toposort_body_in σ node n st (elements (successors n))
  end.

Definition pop (node : nat) (st : ts_state) : ts_state :=
  MkTs (pred st) (ready st ∖ {[node]}) (processed st) (results st).

(** The loop of [toposort] for every order in which [ready.pop()] may
    hand out the nodes and every order in which the sets of successors
    may be iterated. *)
Inductive toposort_loop (σ : store) : ts_state → result (list nat) → Prop :=
  | loop_done st :
      ready st = ∅ →
      toposort_loop σ st (Ok (reverse (results st)))
  | loop_step st node n succs st' r :
      node ∈ ready st →
      σ !! node = Some n →
      succs ≡ₚ elements (successors n) →
      toposort_body_in σ node n (pop node st) succs = Ok st' →
      toposort_loop σ st' r →
      toposort_loop σ st r
  | loop_raise st node n succs e :
      node ∈ ready st →
      σ !! node = Some n →
      succs ≡ₚ elements (successors n) →
      toposort_body_in σ node n (pop node st) succs = Raise e →
      toposort_loop σ st (Raise e)
  | loop_dangling st node :
      node ∈ ready st →
      σ !! node = None →
      toposort_loop σ st (Raise AttributeError).

Definition toposort_init (out : nat) : ts_state := MkTs ∅ {[out]} ∅ [].

Definition toposort_run (σ : store) (g : IRGraph) (r : result (list nat))
  : Prop :=
  match output g with
  | None => r = Raise AttributeError
  | Some out =>
      match σ !! out with
      | None => r = Raise AttributeError
      | Some n =>
          if is_computation n then toposort_loop σ (toposort_init out) r
          else r = Ok []
      end
  end.

(** The same loop as a function: [ready.pop()] hands out the first
    element of [elements ready], and the successors are visited in the
    order of [elements]. *)
Fixpoint toposort_fuel (fuel : nat) (σ : store) (st : ts_state)
  : result (list nat) :=
  match elements (ready st) with
  | [] => Ok (reverse (results st))
  | node :: _ =>
      match fuel with
      | 0 => Raise OutOfFuel
      | S fuel' =>
          st' ← toposort_body σ node (pop node st);
          toposort_fuel fuel' σ st'
      end
  end.

(** All the runs of the loop from a state, explored by a function: every
    node of [ready] is popped in turn, and its successors are visited in
    every order; [check] is asked about every result. *)
Fixpoint explore (fuel : nat) (σ : store) (st : ts_state)
    (check : result (list nat) → bool) : bool :=
  match fuel with
  | 0 => false
  | S fuel' =>
      if decide (ready st = ∅) then check (Ok (reverse (results st)))
      else
        forallb
          (λ node,
             match σ !! node with
             | None => check (Raise AttributeError)
             | Some n =>
                 forallb
                   (λ succs,
                      match toposort_body_in σ node n (pop node st) succs with
                      | Ok st' => explore fuel' σ st' check
                      | Raise e => check (Raise e)
                      end)
                   (permutations (elements (successors n)))
             end)
          (elements (ready st))
  end.

(** What is left to do: the nodes that are ready, and the nodes that
    have not entered [ready] through their count yet. *)
Definition pending (σ : store) (st : ts_state) : nat :=
  size (ready st) + size (filter (λ s, pred st !! s ≠ Some None) (dom σ)).

(** Every turn of the loop pops one node, and a node enters [ready] at
    most once besides the output: one turn per node and one more are
    enough. *)
Definition toposort_bound (σ : store) : nat := S (size σ).

Definition toposort (σ : store) (g : IRGraph) : result (list nat) :=
  match output g with
  | None => Raise AttributeError
  | Some out =>
      match σ !! out with
      | None => Raise AttributeError
      | Some n =>
          if is_computation n
          then toposort_fuel (toposort_bound σ) σ (toposort_init out)
          else Ok []
      end
  end.

(** *** Mutations of a graph *)

Inductive mutation :=
  | SetSucc (self : nat) (r : role) (node : option nat)
  | SetApp (self : nat) (f : option nat) (ins : list (option nat))
  | Redirect (self : nat) (new_node : option nat)
  | Replace (node1 : nat) (node2 : option nat).

Definition mutate (s : store * IRGraph) (m : mutation)
  : option (store * IRGraph) :=
  match m with
  | SetSucc self r node => σ' ← set_succ s.1 self r node; Some (σ', s.2)
  | SetApp self f ins => σ' ← set_app s.1 self f ins; Some (σ', s.2)
  | Redirect self new_node => σ' ← redirect s.1 self new_node; Some (σ', s.2)
  | Replace node1 node2 => replace s.1 s.2 node1 node2
  end.

Fixpoint mutate_all (s : store * IRGraph) (ms : list mutation)
  : option (store * IRGraph) :=
  match ms with
  | [] => Some s
  | m :: ms' => s' ← mutate s m; mutate_all s' ms'
  end.

(** The edge at [role] of node [a], if any. *)
Definition succ_at (σ : store) (a : nat) (r : role) : option nat :=
  s ← σ !! a; mjoin (getitem s r).

Definition node_succ (s : IRNode) (r : role) : option nat :=
  mjoin (getitem s r).

Definition users_of (σ : store) (b : nat) : gset (role * nat) :=
  default ∅ (users <$> σ !! b).

(** [len(x.inputs)] *)
Definition inputs_len (σ : store) (x : nat) : nat :=
  default 0 (length ∘ inputs <$> σ !! x).

(** The length of [inputs] that the slot of a role needs. *)
Definition role_extent (r : role) : nat :=
  match r with
  | FN => 0
  | IN i => S i
  end.

(** The length of a list of inputs without its trailing empty slots. *)
Fixpoint occupied_len (l : list (option nat)) : nat :=
  match l with
  | [] => 0
  | o :: l' =>
      match occupied_len l', o with
      | 0, None => 0
      | n, _ => S n
      end
  end.

(** The number of entries [(r, a)] among the users of a node. *)
Definition user_entries (n : IRNode) (r : role) (a : nat) : nat :=
  length (filter (λ e, e = (r, a)) (elements (users n))).

(** Edge symmetry: forward edges and [users] entries mirror each other. *)
Definition edge_symmetric (σ : store) : Prop :=
  ∀ a r b, succ_at σ a r = Some b ↔ (r, a) ∈ users_of σ b.

(** [b] is reachable from [a] along forward edges. *)
Inductive reachable (σ : store) : nat → nat → Prop :=
  | reachable_refl a : reachable σ a a
  | reachable_step a r b c :
      succ_at σ a r = Some b → reachable σ b c → reachable σ a c.

Definition acyclic (σ : store) : Prop :=
  ∀ a r b, succ_at σ a r = Some b → ¬ reachable σ b a.

(** A rank that decreases along every stored edge, checked by running over
    the nodes of the store. *)
Definition ranked (σ : store) (rank : nat → nat) : bool :=
  forallb (λ an, forallb (λ b, rank b <? rank an.1)
                   (elements (successors an.2)))
    (map_to_list σ).

Definition computation_node (σ : store) (a : nat) : Prop :=
  ∃ n, σ !! a = Some n ∧ is_computation n = true.

(** A store of freshly created nodes. *)
Definition fresh_store (l : list (option nat * symbol * NodeValue)) : store :=
  list_to_map (imap (λ i '(g, t, v), (i, new_node g t v)) l).

(** ** Expression trees ([myia.ast]) *)

(** Modelled from the spec: the node classes of [myia.ast] are not part
    of the sources; the constructors follow the data model of the spec
    and the way [compile.py] builds and reads the nodes.  [Lambda]
    carries its own name generator and a provenance reference. *)
Inductive Expr :=
  | Apply (fn : Expr) (args : list Expr)
  | Symbol (s : symbol)
  | Value (v : Literal)
  | Let (bindings : list (symbol * Expr)) (body : Expr)
  | Lambda (args : list symbol) (body : Expr) (gen : GenSym) (ref : nat)
  | If (cond t f : Expr)
  | Tuple (values : list Expr)
  | Closure (fn : Expr) (args : list Expr)
  | Begin (stmts : list Expr).

(** [isinstance(e, (Symbol, Value))] *)
Definition is_atom (e : Expr) : bool :=
  match e with
  | Symbol _ | Value _ => true
  | _ => false
  end.

(** [isinstance(e, Let)] *)
Definition is_Let (e : Expr) : bool :=
  match e with
  | Let _ _ => true
  | _ => false
  end.

(** The number of nodes on the longest path from the root. *)
Fixpoint height (e : Expr) : nat :=
  match e with
  | Apply f a => S (height f `max` foldr (λ x m, height x `max` m) 0 a)
  | Symbol _ | Value _ => 1
  | Let bs b => S (height b `max` foldr (λ x m, height x.2 `max` m) 0 bs)
  | Lambda _ b _ _ => S (height b)
  | If c t f => S (height c `max` (height t `max` height f))
  | Tuple vs => S (foldr (λ x m, height x `max` m) 0 vs)
  | Closure f a => S (height f `max` foldr (λ x m, height x `max` m) 0 a)
  | Begin ss => S (foldr (λ x m, height x `max` m) 0 ss)
  end.

(** Every operand of an [Apply], [If], [Tuple] or [Closure] node of the
    tree is a [Symbol] or a [Value]. *)
Fixpoint anf (e : Expr) : bool :=
  match e with
  | Apply f a => is_atom f && forallb is_atom a
  | Symbol _ | Value _ => true
  | Let bs b => forallb (λ x, anf x.2) bs && anf b
  | Lambda _ b _ _ => anf b
  | If c t f => is_atom c && is_atom t && is_atom f
  | Tuple vs => forallb is_atom vs
  | Closure f a => is_atom f && forallb is_atom a
  | Begin ss => forallb anf ss
  end.

(** No [Begin] node is left in the tree. *)
Fixpoint begin_free (e : Expr) : bool :=
  match e with
  | Apply f a => begin_free f && forallb begin_free a
  | Symbol _ | Value _ => true
  | Let bs b => forallb (λ x, begin_free x.2) bs && begin_free b
  | Lambda _ b _ _ => begin_free b
  | If c t f => begin_free c && begin_free t && begin_free f
  | Tuple vs => forallb begin_free vs
  | Closure f a => begin_free f && forallb begin_free a
  | Begin _ => false
  end.

(** No [Let] node of the tree has a [Let] as the value of a binding or
    as its body. *)
Fixpoint flat (e : Expr) : bool :=
  match e with
  | Apply f a => flat f && forallb flat a
  | Symbol _ | Value _ => true
  | Let bs b =>
      forallb (λ x, negb (is_Let x.2) && flat x.2) bs
      && negb (is_Let b) && flat b
  | Lambda _ b _ _ => flat b
  | If c t f => flat c && flat t && flat f
  | Tuple vs => forallb flat vs
  | Closure f a => flat f && forallb flat a
  | Begin ss => forallb flat ss
  end.

(** The shape of the trees that the A-normal transformer returns. *)
Definition normal (e : Expr) : bool := anf e && begin_free e.

(** ** String helpers used for the derivation of base names *)

(** [c in s] for a one-character string [c]. *)
Fixpoint string_mem (c : ascii) (s : string) : bool :=
  match s with
  | EmptyString => false
  | String c' s' => if decide (c = c') then true else string_mem c s'
  end.

(** [s.startswith(c)] for a one-character string [c]. *)
Definition startswith (c : ascii) (s : string) : bool :=
  match s with
  | EmptyString => false
  | String c' _ => bool_decide (c = c')
  end.

(** The character class [[A-Za-z_]]. *)
Definition is_ident_char (c : ascii) : bool :=
  let n := nat_of_ascii c in
  ((65 <=? n) && (n <=? 90)) || ((97 <=? n) && (n <=? 122)) || (n =? 95).

(** [re.split("[^A-Za-z_]", s)[0]] *)
Fixpoint ident_prefix (s : string) : string :=
  match s with
  | EmptyString => EmptyString
  | String c s' =>
      if is_ident_char c then String c (ident_prefix s') else EmptyString
  end.

(** [while isinstance(l, Symbol): l = l.label] *)
Fixpoint symbol_base_label (s : symbol) : string :=
  match s with
  | SymStr l _ _ => l
  | SymRel s' _ _ _ => symbol_base_label s'
  end.

(** [name or default_name] *)
Definition name_or (name : option string) (default_name : string) : string :=
  match name with
  | None | Some EmptyString => default_name
  | Some n => n
  end.

(** [mapM] for [result]. *)
Fixpoint mapM_result {A B} (f : A → result B) (l : list A) : result (list B) :=
  match l with
  | [] => Ok []
  | x :: l' => y ← f x; ys ← mapM_result f l'; Ok (y :: ys)
  end.

(** ** The A-normal transformer ([myia/compile.py]) *)

(** The [stash] argument of a transformation: [False], or a pair
    [(name, accumulator)].  The accumulator is only ever appended to, so a
    transformation returns the bindings it appended along with its
    result. *)
Inductive Stash :=
  | NoStash
  | StashAs (name : option string).

Definition binding : Type := symbol * Expr.

Module ANormalTransformer.

(** Computations of a transformer.  The state is [self.gen], which is
    [None] for a transformer built without a generator. *)
Definition M (A : Type) : Type :=
  option GenSym → result (A * option GenSym).

Global Instance M_ret : MRet M := λ A a g, Ok (a, g).
Global Instance M_bind : MBind M := λ A B f m g,
  match m g with
  | Ok (a, g') => f a g'
  | Raise e => Raise e
  end.

Definition raise {A} (e : exn) : M A := λ _, Raise e.

Definition lift {A} (r : result A) : M A := λ g,
  match r with
  | Ok a => Ok (a, g)
  | Raise e => Raise e
  end.

Fixpoint mapM {A B} (f : A → M B) (l : list A) : M (list B) :=
  match l with
  | [] => mret []
  | x :: l' => y ← f x; ys ← mapM f l'; mret (y :: ys)
  end.

(** [self.gen.sym(name)] *)
Definition gen_sym (name : string) : M symbol := λ g,
  match g with
  | None => Raise AttributeError
  | Some g => let (s, g') := GenSym_sym g name in Ok (s, Some g')
  end.

(** [self.gen(name)] *)
Definition gen_call (name : string) : M symbol := λ g,
  match g with
  | None => Raise TypeError
  | Some g => let (s, g') := GenSym_sym g name in Ok (s, Some g')
  end.

Definition stash (st : Stash) (res : Expr) (default_name : string)
  : M (Expr * list binding) :=
  match st with
  | NoStash => mret (res, [])
  | StashAs name =>
      sym ← gen_sym (name_or name default_name);
      mret (Symbol sym, [(sym, res)])
  end.

(** The base name derived from the transformed function position. *)
Definition base_name_of (f : Expr) : result string :=
  match f with
  | Symbol s =>
      let base_label := symbol_base_label s in
      if string_mem "/" base_label then Ok ""
      else if startswith "#" base_label then Ok base_label
      else Ok (ident_prefix base_label)
  | _ => Raise TypeError
  end.

Section methods.
(** [self.transform], the dispatch of the base class. *)
Variable self_transform : Expr → Stash → M (Expr * list binding).

(** [for arg, tag in zip(args, tags)]; the tag [False] is [None]. *)
Fixpoint transform_tagged (base_name : string)
    (l : list (Expr * option string)) : M (list Expr * list binding) :=
  match l with
  | [] => mret ([], [])
  | (arg, tag) :: l' =>
      '(new_arg, bs) ←
        match tag with
        | None => self_transform arg NoStash
        | Some tag =>
            let input_name := base_name +:+ "/" +:+ tag in
            self_transform arg (StashAs (Some input_name))
        end;
      '(new_args, bs') ← transform_tagged base_name l';
      mret (new_arg :: new_args, bs ++ bs')
  end.

Definition transform_arguments (args : list Expr)
    (constructor : list Expr → result Expr) (st : Stash)
    (base_name : option string) (tags : option (list (option string)))
  : M (Expr * list binding) :=
  '(new_args0, bindings0, args, base_name) ←
    match base_name with
    | None =>
        match args with
        | [] => raise ValueError
        | f :: args =>
            '(f', bs) ← self_transform f (StashAs None);
            base_name ← lift (base_name_of f');
            mret ([f'], bs, args, base_name)
        end
    | Some b => mret ([], [], args, b)
    end;
  let tags :=
    match tags with
    | None => imap (λ i _, Some ("in" +:+ pretty (i + 1))) args
    | Some tags => tags
    end in
  '(new_args, bindings1) ← transform_tagged base_name (zip args tags);
  app ← lift (constructor (new_args0 ++ new_args));
  let bindings := bindings0 ++ bindings1 in
  result ←
    match st with
    | NoStash =>
        '(sym, bs) ← stash (StashAs None) app (base_name +:+ "/out");
        mret (Let (bindings ++ bs) sym)
    | StashAs _ =>
        mret (match bindings with
              | [] => app
              | _ => Let bindings app
              end)
    end;
  stash st result (base_name +:+ "/out").

Definition transform_Apply (f : Expr) (args : list Expr) (st : Stash)
  : M (Expr * list binding) :=
  transform_arguments (f :: args)
    (λ l, match l with
          | f :: args => Ok (Apply f args)
          | [] => Raise TypeError
          end)
    st None None.

Definition transform_Symbol (node : Expr) (st : Stash)
  : M (Expr * list binding) :=
  mret (node, []).

Definition transform_Value (node : Expr) (st : Stash)
  : M (Expr * list binding) :=
  mret (node, []).

(** The body is transformed by a new transformer over the generator
    of the lambda; the rebuilt node holds that generator, which has
    advanced. *)
Definition transform_Lambda (args : list symbol) (body : Expr)
    (gen : GenSym) (ref : nat) (st : Stash) : M (Expr * list binding) :=
  λ g,
    match self_transform body NoStash (Some gen) with
    | Ok ((body', _), gen') =>
        stash st (Lambda args body' (default gen gen') ref) "lambda" g
    | Raise e => Raise e
    end.

Definition transform_If (cond t f : Expr) (st : Stash)
  : M (Expr * list binding) :=
  transform_arguments [cond; t; f]
    (λ l, match l with
          | [cond; t; f] => Ok (If cond t f)
          | _ => Raise TypeError
          end)
    st (Some "if") (Some [Some "cond"; Some "then"; Some "else"]).

Definition transform_Let (bindings : list binding) (body : Expr)
    (st : Stash) : M (Expr * list binding) :=
  bs ← mapM (λ '(s, b), '(b', _) ← self_transform b NoStash; mret (s, b'))
          bindings;
  '(body', _) ← self_transform body NoStash;
  stash st (Let bs body') "if".

Definition transform_Tuple (values : list Expr) (st : Stash)
  : M (Expr * list binding) :=
  transform_arguments values (λ l, Ok (Tuple l)) st (Some "tup") None.

Definition transform_Closure (f : Expr) (args : list Expr) (st : Stash)
  : M (Expr * list binding) :=
  transform_arguments (f :: args)
    (λ l, match l with
          | f :: args => Ok (Closure f args)
          | [] => Raise TypeError
          end)
    st (Some "closure") None.

Definition transform_Begin (stmts : list Expr) (st : Stash)
  : M (Expr * list binding) :=
  let stmts :=
    filter (λ stmt, ¬ is_atom stmt) (removelast stmts)
    ++ option_list (last stmts) in
  match stmts with
  | [stmt] => self_transform stmt st
  | _ =>
      syms ← mapM (λ _, gen_call "_") stmts;
      body ← match last syms with
             | Some s => mret (Symbol s)
             | None => raise IndexError
             end;
      transform_Let (zip syms stmts) body st
  end.

(** Modelled from the spec: the base class [Transformer] is not part
    of the sources; its [transform] dispatches on the tag of the
    node. *)
Definition dispatch (node : Expr) (st : Stash) : M (Expr * list binding) :=
  match node with
  | Apply f args => transform_Apply f args st
  | Symbol _ => transform_Symbol node st
  | Value _ => transform_Value node st
  | Let bindings body => transform_Let bindings body st
  | Lambda args body gen ref => transform_Lambda args body gen ref st
  | If cond t f => transform_If cond t f st
  | Tuple values => transform_Tuple values st
  | Closure f args => transform_Closure f args st
  | Begin stmts => transform_Begin stmts st
  end.
End methods.

(** [self.transform(node, stash)], with a bound on the depth of the
    recursion. *)
Fixpoint transform (fuel : nat) (node : Expr) (st : Stash)
  : M (Expr * list binding) :=
  match fuel with
  | 0 => raise OutOfFuel
  | S fuel' => dispatch (transform fuel') node st
  end.

End ANormalTransformer.

(** ** The Let collapser *)

Module CollapseLet.

Section methods.
Variable self_transform : Expr → result Expr.

(** [for s, b in node.bindings], with the accumulator
    [new_bindings]. *)
Fixpoint collapse_bindings (new_bindings : list binding)
    (bs : list binding) : result (list binding) :=
  match bs with
  | [] => Ok new_bindings
  | (s, b) :: bs' =>
      b ← self_transform b;
      match b with
      | Let bindings body =>
          collapse_bindings ((new_bindings ++ bindings) ++ [(s, body)]) bs'
      | _ => collapse_bindings (new_bindings ++ [(s, b)]) bs'
      end
  end.

Definition transform_Let (bindings : list binding) (body : Expr)
  : result Expr :=
  new_bindings ← collapse_bindings [] bindings;
  body ← self_transform body;
  match body with
  | Let bindings' body' => Ok (Let (new_bindings ++ bindings') body')
  | _ => Ok (Let new_bindings body)
  end.

Definition transform_Lambda (args : list symbol) (body : Expr)
    (gen : GenSym) (ref : nat) : result Expr :=
  body ← self_transform body; Ok (Lambda args body gen ref).

Definition transform_Apply (f : Expr) (args : list Expr) : result Expr :=
  f ← self_transform f;
  args ← mapM_result self_transform args;
  Ok (Apply f args).

Definition transform_Tuple (values : list Expr) : result Expr :=
  values ← mapM_result self_transform values; Ok (Tuple values).

Definition transform_If (cond t f : Expr) : result Expr :=
  cond ← self_transform cond;
  t ← self_transform t;
  f ← self_transform f;
  Ok (If cond t f).
End methods.

(** The dispatch of the base class; there is no method for [Begin]. *)
Fixpoint transform (node : Expr) : result Expr :=
  match node with
  | Let bindings body => transform_Let transform bindings body
  | Symbol _ => Ok node
  | Value _ => Ok node
  | Lambda args body gen ref => transform_Lambda transform args body gen ref
  | Apply f args => transform_Apply transform f args
  | Tuple values => transform_Tuple transform values
  | If cond t f => transform_If transform cond t f
  | Closure _ _ => Ok node
  | Begin _ => Raise UnsupportedNode
  end.

End CollapseLet.

(** What is established of every result of [self.transform]: the tree
    returned and the values of the bindings appended are in normal shape,
    a result that was stashed is an atom, and nothing is appended
    without a stash. *)
Definition good
    (rec : Expr → Stash → ANormalTransformer.M (Expr * list binding))
  : Prop :=
  ∀ node st g r bs g',
    rec node st g = Ok ((r, bs), g') →
    normal r ∧ Forall (λ b, normal b.2) bs ∧
    (st ≠ NoStash → is_atom r) ∧ (st = NoStash → bs = []).

(** A computation that does not reach the bound on the recursion. *)
Definition safe {A} (m : ANormalTransformer.M A) : Prop :=
  ∀ g, m g ≠ Raise OutOfFuel.

(** The bindings of a flat [Let]. *)
Definition flat_binding (x : binding) : Prop :=
  negb (is_Let x.2) ∧ flat x.2.

(** The Let collapser in the words of the spec: a binding whose
    collapsed value is a [Let] is replaced by the bindings of that [Let]
    followed by the binding of its body; a collapsed body that is a
    [Let] hands over its bindings and its body. *)
Definition splice (x : binding) : list binding :=
  match x.2 with
  | Let bindings body => bindings ++ [(x.1, body)]
  | _ => [x]
  end.

Definition merge_body (new_bindings : list binding) (body : Expr) : Expr :=
  match body with
  | Let bindings body' => Let (new_bindings ++ bindings) body'
  | _ => Let new_bindings body
  end.

Definition collapse_Let_spec (bindings : list binding) (body : Expr)
  : result Expr :=
  bs ← mapM_result (λ x, b ← CollapseLet.transform x.2; Ok (x.1, b)) bindings;
  body' ← CollapseLet.transform body;
  Ok (merge_body (bs ≫= splice) body').

(** [a_normal]: the transformer is built without a generator. *)
Definition a_normal (node : Expr) : result Expr :=
  match ANormalTransformer.transform (height node) node NoStash None with
  | Ok ((node, _), _) => CollapseLet.transform node
  | Raise e => Raise e
  end.

(** ** Examples *)

Definition example_tag (s : string) : symbol := SymStr s "example" 0.

(** Five bare nodes: the constant [f] (0) and the nodes [out] (1),
    [x] (2), [y] (3) and [z] (4) of a graph whose output is [out]. *)
Definition example_nodes : store :=
  fresh_store
    [(None, example_tag "f", BuiltinValue (example_tag "f"));
     (Some 0, example_tag "out", NO_VALUE);
     (Some 0, example_tag "x", NO_VALUE);
     (Some 0, example_tag "y", NO_VALUE);
     (Some 0, example_tag "z", NO_VALUE)].

Definition example_graph : IRGraph := MkIRGraph None [] (Some 1).

(** [x = f()], [y = f(x)], [out = f(y)], then [z = f(x)] and
    [replace(y, z)]: the output is now [f(z)], and [y] is dead but still
    holds its edge to [x]. *)
Definition replaced_build : list mutation :=
  [SetApp 2 (Some 0) []; SetApp 3 (Some 0) [Some 2];
   SetApp 1 (Some 0) [Some 3]; SetApp 4 (Some 0) [Some 2];
   Replace 3 (Some 4)].

(** [out = f(x)], [x = f(y)], [y = f(x)]: a cycle below the output. *)
Definition inner_cycle_build : list mutation :=
  [SetApp 2 (Some 0) [Some 3]; SetApp 1 (Some 0) [Some 2];
   SetApp 3 (Some 0) [Some 2]].

(** [out = f(x)], [x = f(out)]: a cycle through the output. *)
Definition outer_cycle_build : list mutation :=
  [SetApp 2 (Some 0) [Some 1]; SetApp 1 (Some 0) [Some 2]].

(** [x = x()]: a node that is its own function, used by [out = f(x)]. *)
Definition self_loop_build : list mutation :=
  [SetApp 2 (Some 2) []; SetApp 1 (Some 0) [Some 2]].

(** [out = f(x, y)] *)
Definition two_inputs_build : list mutation :=
  [SetApp 1 (Some 0) [Some 2; Some 3]].

(** The store that a sequence of mutations of the example nodes leaves. *)
Definition built (ms : list mutation) : store :=
  match mutate_all (example_nodes, example_graph) ms with
  | Some s => s.1
  | None => ∅
  end.

Definition example_gen : GenSym := MkGenSym "lambda" 0.

(** [f(g(x))] *)
Definition nested_apply (f g x : symbol) : Expr :=
  Apply (Symbol f) [Apply (Symbol g) [Symbol x]].

(** A function whose body is [f(g(x))]. *)
Definition example_lambda : Expr :=
  Lambda [example_tag "x"]
    (nested_apply (example_tag "f") (example_tag "g") (example_tag "x"))
    example_gen 0.

(** A function whose body is a [Let] with a nested [Let] as the value
    of a binding. *)
Definition example_let : Expr :=
  Lambda [example_tag "x"]
    (Let [(example_tag "a",
           Let [(example_tag "b", Symbol (example_tag "x"))]
             (Symbol (example_tag "b")))]
       (nested_apply (example_tag "f") (example_tag "g") (example_tag "a")))
    example_gen 0.

(** ** The IR graph *)

(** *** Views of a store *)

Lemma succ_at_lookup σ a r s :
  σ !! a = Some s → succ_at σ a r = node_succ s r.
Proof. intros H. unfold succ_at. by rewrite H. Qed.

Lemma node_succ_set_users s u r : node_succ (set_users s u) r = node_succ s r.
Proof. by destruct r. Qed.

Lemma users_of_lookup σ b n : σ !! b = Some n → users_of σ b = users n.
Proof. intros H. unfold users_of. by rewrite H. Qed.

Lemma succ_at_insert_users σ b n u x q :
  σ !! b = Some n →
  succ_at (<[b := set_users n u]> σ) x q = succ_at σ x q.
Proof.
  intros Hb. unfold succ_at. destruct (decide (x = b)) as [->|Hne].
  - rewrite lookup_insert_eq Hb /=. by destruct q.
  - by rewrite lookup_insert_ne.
Qed.

Lemma users_of_insert_users σ b n u x :
  users_of (<[b := set_users n u]> σ) x
  = if decide (x = b) then u else users_of σ x.
Proof.
  unfold users_of. case_decide as Hx.
  - subst. by rewrite lookup_insert_eq.
  - by rewrite lookup_insert_ne.
Qed.

Lemma users_of_insert_same_users σ a s s' x :
  σ !! a = Some s → users s' = users s →
  users_of (<[a := s']> σ) x = users_of σ x.
Proof.
  intros Ha Hu. unfold users_of. destruct (decide (x = a)) as [->|Hne].
  - by rewrite lookup_insert_eq Ha /= Hu.
  - by rewrite lookup_insert_ne.
Qed.

Lemma succ_at_insert σ a s' x q :
  succ_at (<[a := s']> σ) x q
  = if decide (x = a) then node_succ s' q else succ_at σ x q.
Proof.
  unfold succ_at. case_decide as Hx.
  - subst. by rewrite lookup_insert_eq.
  - by rewrite lookup_insert_ne.
Qed.

(** Padding the inputs with empty slots does not create an edge. *)
Lemma lookup_pad_join (l : list (option nat)) k j :
  mjoin ((l ++ replicate k None) !! j) = mjoin (l !! j).
Proof.
  destruct (decide (j < length l)) as [Hlt|Hge].
  - by rewrite lookup_app_l.
  - rewrite lookup_app_r; [|lia].
    rewrite (lookup_ge_None_2 l j); [|lia].
    destruct (replicate k None !! (j - length l)) as [o|] eqn:E; [|done].
    apply lookup_replicate in E as [-> _]. done.
Qed.

Lemma lookup_insert_join (l : list (option nat)) i j o :
  i < length l →
  mjoin (<[i := o]> l !! j) = if decide (j = i) then o else mjoin (l !! j).
Proof.
  intros Hi. case_decide as Hj.
  - subst. by rewrite list_lookup_insert_eq.
  - by rewrite list_lookup_insert_ne.
Qed.

Lemma inputs_len_insert σ a s' x :
  inputs_len (<[a := s']> σ) x
  = if decide (x = a) then length (inputs s') else inputs_len σ x.
Proof.
  unfold inputs_len. case_decide as Hx.
  - subst. by rewrite lookup_insert_eq.
  - by rewrite lookup_insert_ne.
Qed.

Lemma inputs_len_lookup σ a s :
  σ !! a = Some s → inputs_len σ a = length (inputs s).
Proof. intros H. unfold inputs_len. by rewrite H. Qed.

Lemma inputs_len_insert_users σ b n u x :
  σ !! b = Some n →
  inputs_len (<[b := set_users n u]> σ) x = inputs_len σ x.
Proof.
  intros Hb. rewrite inputs_len_insert. case_decide; [|done].
  subst. by rewrite (inputs_len_lookup _ _ _ Hb).
Qed.

Lemma succ_at_extent σ a r b :
  succ_at σ a r = Some b → role_extent r ≤ inputs_len σ a.
Proof.
  unfold succ_at, inputs_len. destruct (σ !! a) as [s|]; [|done].
  destruct r as [|i]; simpl; [lia|].
  destruct (inputs s !! i) eqn:E; [|done].
  intros _. apply lookup_lt_Some in E. lia.
Qed.

(** *** The effect of the atomic operations *)

Lemma link_effect σ a b r σ' :
  process_operation σ (Link a b r) = Some σ' →
  succ_at σ a r = None ∧
  (∀ x q, succ_at σ' x q
          = if decide (x = a ∧ q = r) then Some b else succ_at σ x q) ∧
  (∀ x, users_of σ' x
        = if decide (x = b) then users_of σ x ∪ {[(r, a)]} else users_of σ x) ∧
  dom σ' = dom σ.
Proof.
  simpl. intros H.
  destruct (σ !! a) as [s|] eqn:Ha; simplify_eq/=.
  destruct (_ : option IRNode) as [s'|] eqn:Hs' in H; simplify_eq/=.
  destruct (<[a:=s']> σ !! b) as [n|] eqn:Hb; simplify_eq/=.
  assert (Hus : users s' = users s).
  { destruct r; simplify_option_eq; repeat case_match; by simplify_eq/=. }
  assert (Hslot : node_succ s r = None ∧
            ∀ q, node_succ s' q = if decide (q = r) then Some b else node_succ s q).
  { destruct r as [|idx]; simpl in Hs'.
    - destruct (fn s) eqn:Hf; simplify_eq/=. split; [by rewrite /node_succ /= Hf|].
      intros [|j]; case_decide; simplify_eq/=; done.
    - set (ins := if decide (length (inputs s) ≤ idx)
                  then inputs s ++ replicate (idx - length (inputs s) + 1) None
                  else inputs s) in *.
      destruct (ins !! idx) as [[|]|] eqn:Hi; simplify_eq/=.
      assert (Hj : ∀ j, mjoin (ins !! j) = mjoin (inputs s !! j)).
      { intros j. unfold ins. case_decide; [apply lookup_pad_join|done]. }
      split.
      + by rewrite /node_succ /= -Hj Hi.
      + intros [|j]; [by case_decide|]. rewrite /node_succ /=.
        rewrite lookup_insert_join; [|by eapply lookup_lt_Some].
        rewrite Hj. repeat case_decide; simplify_eq/=; done. }
  destruct Hslot as [Hnone Hnew]. clear Hs'.
  split; [by rewrite (succ_at_lookup _ _ _ _ Ha)|].
  split; [|split].
  - intros x q. rewrite (succ_at_insert_users _ _ _ _ _ _ Hb) succ_at_insert.
    destruct (decide (x = a)) as [->|Hx].
    + rewrite Hnew (succ_at_lookup _ _ _ _ Ha).
      repeat case_decide; try done; by intuition.
    + rewrite decide_False; [done|by intros [? _]].
  - intros x. rewrite users_of_insert_users.
    case_decide as Hx; [|by eapply users_of_insert_same_users].
    subst x. rewrite -(users_of_lookup _ _ _ Hb).
    by erewrite users_of_insert_same_users.
  - rewrite !dom_insert_L.
    apply elem_of_dom_2 in Ha, Hb. rewrite dom_insert_L in Hb. set_solver.
Qed.

Lemma link_inputs_len σ a b r σ' x :
  process_operation σ (Link a b r) = Some σ' →
  inputs_len σ' x
  = if decide (x = a) then inputs_len σ a `max` role_extent r
    else inputs_len σ x.
Proof.
  simpl. intros H.
  destruct (σ !! a) as [s|] eqn:Ha; simplify_eq/=.
  destruct (_ : option IRNode) as [s'|] eqn:Hs' in H; simplify_eq/=.
  destruct (<[a:=s']> σ !! b) as [n|] eqn:Hb; simplify_eq/=.
  rewrite (inputs_len_insert_users _ _ _ _ _ Hb) inputs_len_insert.
  case_decide; [|done]. subst x. rewrite (inputs_len_lookup _ _ _ Ha).
  destruct r as [|idx]; simpl in *.
  - destruct (fn s); simplify_eq/=. lia.
  - case_decide; case_match; simplify_eq/=; try case_match; simplify_eq/=;
      rewrite length_insert ?length_app ?length_replicate; lia.
Qed.

Lemma unlink_effect σ a b r σ' :
  process_operation σ (Unlink a b r) = Some σ' →
  succ_at σ a r = Some b ∧
  (r, a) ∈ users_of σ b ∧
  (∀ x q, succ_at σ' x q
          = if decide (x = a ∧ q = r) then None else succ_at σ x q) ∧
  (∀ x, users_of σ' x
        = if decide (x = b) then users_of σ x ∖ {[(r, a)]} else users_of σ x) ∧
  (∀ x, inputs_len σ' x = inputs_len σ x) ∧
  dom σ' = dom σ.
Proof.
  simpl. intros H.
  destruct (σ !! a) as [s|] eqn:Ha; simplify_eq/=.
  destruct (_ : option IRNode) as [s'|] eqn:Hs' in H; simplify_eq/=.
  destruct (<[a:=s']> σ !! b) as [n|] eqn:Hb; simplify_eq/=.
  case_decide as Hin; simplify_eq/=.
  assert (Hus : users s' = users s).
  { destruct r; simpl in Hs'; case_decide; by simplify_eq/=. }
  assert (Hlen : length (inputs s') = length (inputs s)).
  { destruct r; simpl in Hs'; case_decide; simplify_eq/=;
      by rewrite ?length_insert. }
  assert (Hslot : node_succ s r = Some b ∧
            ∀ q, node_succ s' q = if decide (q = r) then None else node_succ s q).
  { destruct r as [|idx]; simpl in Hs'; case_decide as Hd; simplify_eq/=.
    - split; [by rewrite /node_succ /= Hd|].
      intros [|j]; case_decide; simplify_eq/=; done.
    - split; [by rewrite /node_succ /= Hd|].
      intros [|j]; [by case_decide|]. rewrite /node_succ /=.
      rewrite lookup_insert_join; [|by eapply lookup_lt_Some].
      repeat case_decide; simplify_eq/=; done. }
  destruct Hslot as [Hold Hnew]. clear Hs'.
  assert (Hub : users_of σ b = users n).
  { rewrite -(users_of_lookup _ _ _ Hb). by erewrite users_of_insert_same_users. }
  split; [by rewrite (succ_at_lookup _ _ _ _ Ha)|].
  split; [by rewrite Hub|].
  split; [|split; [|split]].
  - intros x q. rewrite (succ_at_insert_users _ _ _ _ _ _ Hb) succ_at_insert.
    destruct (decide (x = a)) as [->|Hx].
    + rewrite Hnew (succ_at_lookup _ _ _ _ Ha).
      repeat case_decide; try done; by intuition.
    + rewrite decide_False; [done|by intros [? _]].
  - intros x. rewrite users_of_insert_users.
    case_decide as Hx; [|by eapply users_of_insert_same_users].
    subst x. by rewrite Hub.
  - intros x. rewrite (inputs_len_insert_users _ _ _ _ _ Hb) inputs_len_insert.
    case_decide; [|done]. subst. by rewrite (inputs_len_lookup _ _ _ Ha).
  - rewrite !dom_insert_L.
    apply elem_of_dom_2 in Ha, Hb. rewrite dom_insert_L in Hb. set_solver.
Qed.

Lemma link_success σ a b r :
  a ∈ dom σ → b ∈ dom σ → succ_at σ a r = None →
  is_Some (process_operation σ (Link a b r)).
Proof.
  intros [s Ha]%elem_of_dom [n Hb]%elem_of_dom Hnone. simpl.
  rewrite Ha /=. rewrite (succ_at_lookup _ _ _ _ Ha) in Hnone.
  assert (∃ s', match r with
           | FN => match fn s with
                   | Some _ => None
                   | None => Some (set_fn s (Some b))
                   end
           | IN idx =>
               match (if decide (length (inputs s) ≤ idx)
                  then inputs s ++ replicate (idx - length (inputs s) + 1) None
                  else inputs s) !! idx with
               | Some None => Some (set_inputs s (<[idx:=Some b]>
                   (if decide (length (inputs s) ≤ idx)
                    then inputs s ++ replicate (idx - length (inputs s) + 1) None
                    else inputs s)))
               | _ => None
               end
           end = Some s') as [s' ->].
  { destruct r as [|idx]; rewrite /node_succ /= in Hnone.
    - rewrite Hnone. eauto.
    - case_decide as Hd.
      + rewrite lookup_app_r; [|lia]. rewrite lookup_replicate_2; [|lia]. eauto.
      + destruct (inputs s !! idx) as [[|]|] eqn:E; simplify_eq/=; eauto.
        apply lookup_ge_None in E. lia. }
  simpl. destruct (decide (b = a)) as [->|Hne].
  - rewrite lookup_insert_eq /=. eauto.
  - rewrite lookup_insert_ne // Hb /=. eauto.
Qed.

Lemma unlink_success σ a b r :
  succ_at σ a r = Some b → (r, a) ∈ users_of σ b →
  is_Some (process_operation σ (Unlink a b r)).
Proof.
  intros Hs Hu. simpl. unfold succ_at in Hs.
  destruct (σ !! a) as [s|] eqn:Ha; [|done]. simpl in *.
  unfold users_of in Hu.
  destruct (σ !! b) as [n|] eqn:Hb; [|set_solver]. simpl in Hu.
  assert (∃ s', match r with
           | FN => if decide (fn s = Some b) then Some (set_fn s None) else None
           | IN idx =>
               if decide (inputs s !! idx = Some (Some b))
               then Some (set_inputs s (<[idx:=None]> (inputs s)))
               else None
           end = Some s' ∧ users s' = users s) as (s' & -> & Hus).
  { destruct r as [|idx]; simpl in Hs.
    - rewrite decide_True //. eauto.
    - destruct (inputs s !! idx) as [[|]|] eqn:E; simplify_eq/=.
      rewrite decide_True //. eauto. }
  simpl. destruct (decide (b = a)) as [->|Hne].
  - rewrite lookup_insert_eq /=. simplify_eq. rewrite decide_True; [eauto|].
    by rewrite Hus.
  - rewrite lookup_insert_ne // Hb /=. rewrite decide_True; [eauto|done].
Qed.

(** *** Edge symmetry is kept by every atomic operation *)

Lemma process_operation_edge_symmetric σ o σ' :
  edge_symmetric σ → process_operation σ o = Some σ' → edge_symmetric σ'.
Proof.
  intros Hsym Hop. destruct o as [a b r|a b r|a b].
  - apply link_effect in Hop as (Hnone & Hs & Hu & _).
    intros x q y. rewrite Hs Hu.
    destruct (decide (x = a ∧ q = r)) as [[-> ->]|Hne].
    + destruct (decide (y = b)) as [->|Hy]; [set_solver|].
      split; [congruence|]. intros Hin%Hsym. congruence.
    + rewrite Hsym. case_decide; [|done]. subst y.
      rewrite elem_of_union elem_of_singleton. naive_solver.
  - apply unlink_effect in Hop as (Hold & Hin & Hs & Hu & _).
    intros x q y. rewrite Hs Hu.
    destruct (decide (x = a ∧ q = r)) as [[-> ->]|Hne].
    + split; [done|]. case_decide; [set_solver|].
      intros Hy%Hsym. congruence.
    + rewrite Hsym. case_decide; [|done]. subst y.
      rewrite elem_of_difference elem_of_singleton. naive_solver.
  - by simplify_eq/=.
Qed.

Lemma apply_operations_edge_symmetric σ ops σ' :
  edge_symmetric σ → apply_operations σ ops = Some σ' → edge_symmetric σ'.
Proof.
  revert σ. induction ops as [|o ops IH]; intros σ Hsym H; simplify_eq/=.
  - done.
  - destruct (process_operation σ o) as [σ1|] eqn:Ho; simplify_eq/=.
    eauto using process_operation_edge_symmetric.
Qed.

Lemma commit_edge_symmetric σ ops σ' :
  edge_symmetric σ → commit σ ops = Some σ' → edge_symmetric σ'.
Proof.
  destruct ops as [l|]; [|done]. apply apply_operations_edge_symmetric.
Qed.

Lemma mutate_edge_symmetric s m s' :
  edge_symmetric s.1 → mutate s m = Some s' → edge_symmetric s'.1.
Proof.
  intros Hsym H. destruct m; unfold mutate, replace in H;
    simplify_option_eq; eauto using commit_edge_symmetric.
Qed.

Lemma mutate_all_edge_symmetric s ms s' :
  edge_symmetric s.1 → mutate_all s ms = Some s' → edge_symmetric s'.1.
Proof.
  revert s. induction ms as [|m ms IH]; intros s Hsym H; simplify_eq/=.
  - done.
  - destruct (mutate s m) as [s1|] eqn:Hm; simplify_eq/=.
    eauto using mutate_edge_symmetric.
Qed.

Lemma filter_eq_absent {A} `{EqDecision A} (x : A) (l : list A) :
  x ∉ l → filter (λ e, e = x) l = [].
Proof.
  induction l as [|y l IH]; [done|]. intros Hx.
  apply not_elem_of_cons in Hx as [Hne Hx].
  rewrite filter_cons decide_False; [by apply IH|done].
Qed.

(** A set holds each of its entries once. *)
Lemma user_entries_elem n r a : (r, a) ∈ users n → user_entries n r a = 1.
Proof.
  intros Hin. unfold user_entries.
  apply elem_of_elements in Hin.
  pose proof (NoDup_elements (users n)) as Hnd.
  induction Hnd as [|x l Hx Hnd IH]; [by apply elem_of_nil in Hin|].
  rewrite filter_cons. apply elem_of_cons in Hin as [<-|Hin].
  - rewrite decide_True //=. by rewrite filter_eq_absent.
  - rewrite decide_False; [by apply IH|]. by intros ->.
Qed.

Lemma fresh_store_lookup l i n :
  fresh_store l !! i = Some n → fn n = None ∧ inputs n = [] ∧ users n = ∅.
Proof.
  unfold fresh_store. intros H%elem_of_list_to_map_2.
  apply elem_of_lookup_imap_1 in H as (j & [[g t] v] & Heq & _).
  by simplify_eq/=.
Qed.

Lemma fresh_store_edge_symmetric l : edge_symmetric (fresh_store l).
Proof.
  intros a r b. unfold succ_at, users_of. split.
  - destruct (fresh_store l !! a) as [s|] eqn:E; [|done].
    apply fresh_store_lookup in E as (Hf & Hi & _).
    destruct r; simpl; rewrite ?Hf ?Hi //.
  - destruct (fresh_store l !! b) as [s|] eqn:E; [|set_solver].
    apply fresh_store_lookup in E as (_ & _ & Hu). simpl. rewrite Hu. set_solver.
Qed.

(** *** Sequences of operations *)

#[local] Arguments process_operation : simpl never.

(** Case analysis on a [decide] of the goal only. *)
Ltac goal_decide :=
  match goal with
  | |- context [decide ?P] => destruct (decide P)
  end.

Lemma apply_operations_app σ ops1 ops2 :
  apply_operations σ (ops1 ++ ops2)
  = σ1 ← apply_operations σ ops1; apply_operations σ1 ops2.
Proof.
  revert σ. induction ops1 as [|o ops1 IH]; intros σ; [done|]. simpl.
  destruct (process_operation σ o); [apply IH|done].
Qed.

Lemma set_succ_operations_relink σ n r a b :
  succ_at σ n r = Some a → a ≠ b →
  set_succ_operations σ n r (Some b) = Some [Unlink n a r; Link n b r].
Proof.
  unfold succ_at, set_succ_operations. intros H Hne.
  destruct (σ !! n) as [s|]; [|done]. simpl in *.
  destruct (getitem s r) as [[u|]|]; simplify_eq/=.
  rewrite decide_False; [done|congruence].
Qed.

Lemma set_succ_operations_same σ n r a :
  succ_at σ n r = Some a → set_succ_operations σ n r (Some a) = Some [].
Proof.
  unfold succ_at, set_succ_operations. intros H.
  destruct (σ !! n) as [s|]; [|done]. simpl in *.
  destruct (getitem s r) as [[u|]|]; simplify_eq/=.
  by rewrite decide_True.
Qed.

Lemma redirect_loop_relink σ us a b :
  a ≠ b → (∀ r n, (r, n) ∈ us → succ_at σ n r = Some a) →
  redirect_loop σ us (Some b)
  = Some (us ≫= λ '(r, n), [Unlink n a r; Link n b r]).
Proof.
  intros Hne. induction us as [|[r n] us IH]; intros Hus; [done|].
  assert (succ_at σ n r = Some a) as Hs by (apply Hus; set_solver).
  simpl. rewrite (set_succ_operations_relink _ _ _ a b Hs Hne) /=.
  rewrite IH //. intros r' n' Hin. apply Hus. set_solver.
Qed.

Lemma redirect_loop_same σ us a :
  (∀ r n, (r, n) ∈ us → succ_at σ n r = Some a) →
  redirect_loop σ us (Some a) = Some [].
Proof.
  induction us as [|[r n] us IH]; intros Hus; [done|].
  assert (succ_at σ n r = Some a) as Hs by (apply Hus; set_solver).
  simpl. rewrite (set_succ_operations_same _ _ _ _ Hs) /=.
  rewrite IH //. intros r' n' Hin. apply Hus. set_solver.
Qed.

(** Moving the users [us] of [a] onto [b], one after the other. *)
Lemma apply_relinks σ us a b σ' :
  a ≠ b → NoDup us →
  apply_operations σ (us ≫= λ '(r, n), [Unlink n a r; Link n b r]) = Some σ' →
  (∀ x q, succ_at σ' x q
          = if decide ((q, x) ∈ us) then Some b else succ_at σ x q) ∧
  (∀ x, users_of σ' x
        = if decide (x = a) then users_of σ a ∖ list_to_set us
          else if decide (x = b) then users_of σ b ∪ list_to_set us
          else users_of σ x) ∧
  (∀ x, inputs_len σ' x = inputs_len σ x) ∧
  dom σ' = dom σ.
Proof.
  intros Hne Hnd. revert σ.
  induction Hnd as [|[r n] us Hnin Hnd IH]; intros σ Happ; simpl in Happ.
  - simplify_eq. split_and!; [..|done].
    + intros x q. case_decide as Hx; [by apply elem_of_nil in Hx|done].
    + intros x. repeat goal_decide; subst; set_solver.
    + done.
  - destruct (process_operation σ (Unlink n a r)) as [σ1|] eqn:H1;
      simplify_eq/=.
    destruct (process_operation σ1 (Link n b r)) as [σ2|] eqn:H2;
      simplify_eq/=.
    apply unlink_effect in H1 as (Hold & Hin & Hs1 & Hu1 & Hl1 & Hd1).
    pose proof (link_inputs_len _ _ _ _ _ n H2) as Hl2n.
    pose proof (λ x, link_inputs_len _ _ _ _ _ x H2) as Hl2.
    apply link_effect in H2 as (_ & Hs2 & Hu2 & Hd2).
    apply IH in Happ as (Hs & Hu & Hl & Hd).
    split_and!.
    + intros x q. rewrite Hs Hs2 Hs1.
      destruct (decide (x = n ∧ q = r)) as [[-> ->]|Hxq].
      * rewrite (decide_True (P := (r, n) ∈ (r, n) :: us)); [|set_solver].
        by goal_decide.
      * destruct (decide ((q, x) ∈ us)) as [Hi|Hi].
        -- rewrite decide_True //. set_solver.
        -- rewrite decide_False //. intros [?|?]%elem_of_cons; naive_solver.
    + intros x. rewrite Hu !Hu2 !Hu1. simpl.
      repeat goal_decide; subst; try done; set_solver.
    + intros x. rewrite Hl Hl2. goal_decide; [|by rewrite Hl1]. subst x.
      apply succ_at_extent in Hold. rewrite ?Hl1. lia.
    + by rewrite Hd Hd2 Hd1.
Qed.

(** The same sequence goes through when the users are recorded on both
    sides. *)
Lemma apply_relinks_success σ us a b :
  a ≠ b → NoDup us → b ∈ dom σ →
  (∀ r n, (r, n) ∈ us → succ_at σ n r = Some a ∧ (r, n) ∈ users_of σ a) →
  is_Some (apply_operations σ
             (us ≫= λ '(r, n), [Unlink n a r; Link n b r])).
Proof.
  intros Hne Hnd. revert σ.
  induction Hnd as [|[r n] us Hnin Hnd IH]; intros σ Hb Hus; simpl; [eauto|].
  destruct (Hus r n) as [Hs Hu]; [set_solver|].
  destruct (unlink_success _ _ _ _ Hs Hu) as [σ1 H1]. rewrite H1 /=.
  pose proof H1 as (_ & _ & Hs1 & Hu1 & _ & Hd1)%unlink_effect.
  assert (Hn : n ∈ dom σ).
  { apply elem_of_dom. unfold succ_at in Hs. by destruct (σ !! n). }
  destruct (link_success σ1 n b r) as [σ2 H2]; [by rewrite Hd1..| |].
  { rewrite Hs1. by rewrite decide_True. }
  rewrite H2 /=.
  apply link_effect in H2 as (_ & Hs2 & Hu2 & Hd2).
  apply IH; [by rewrite Hd2 Hd1|].
  intros r' n' Hin. destruct (Hus r' n') as [Hs' Hu']; [set_solver|].
  assert ((r', n') ≠ (r, n)) as Hdiff by (intros ?; simplify_eq; done).
  split.
  - rewrite Hs2 Hs1. rewrite !decide_False //; naive_solver.
  - rewrite Hu2 Hu1. rewrite decide_False // decide_True //. set_solver.
Qed.

(** *** [redirect] *)

Lemma redirect_unfold σ a s node :
  σ !! a = Some s →
  redirect σ a node = redirect_in σ (elements (users s)) a node.
Proof.
  intros Ha. unfold redirect, redirect_in, redirect_operations.
  by rewrite Ha.
Qed.

Lemma redirect_in_unfold σ us a b :
  edge_symmetric σ → a ≠ b → (∀ e, e ∈ us → e ∈ users_of σ a) →
  redirect_in σ us a (Some b)
  = apply_operations σ (us ≫= λ '(r, n), [Unlink n a r; Link n b r]).
Proof.
  intros Hsym Hne Hus. unfold redirect_in, redirect_operations_in, commit.
  rewrite (redirect_loop_relink _ _ a) //=.
  - rewrite apply_operations_app /=.
    by destruct (apply_operations _ _).
  - intros r n Hin. by apply Hsym, Hus.
Qed.

Lemma redirect_in_effect σ us a b σ' :
  edge_symmetric σ → a ≠ b →
  NoDup us → (∀ e, e ∈ us ↔ e ∈ users_of σ a) →
  redirect_in σ us a (Some b) = Some σ' →
  (∀ r n, (r, n) ∈ users_of σ a → succ_at σ' n r = Some b) ∧
  users_of σ' a = ∅ ∧
  (∀ x q, (q, x) ∉ users_of σ a → succ_at σ' x q = succ_at σ x q) ∧
  (∀ x, inputs_len σ' x = inputs_len σ x) ∧
  users_of σ' b = users_of σ b ∪ users_of σ a ∧
  (∀ x, x ≠ a → x ≠ b → users_of σ' x = users_of σ x).
Proof.
  intros Hsym Hne Hnd Hus Hred.
  rewrite redirect_in_unfold // in Hred; [|by intros e ?%Hus].
  apply apply_relinks in Hred as (Hs & Hu & Hl & _); [|done..].
  split_and!.
  - intros r n Hin. rewrite Hs decide_True //. by apply Hus.
  - rewrite Hu decide_True //. apply set_eq. intros e.
    rewrite elem_of_difference elem_of_list_to_set. set_solver.
  - intros x q Hnin. rewrite Hs decide_False //. by intros ?%Hus.
  - done.
  - rewrite Hu decide_False; [|done]. rewrite decide_True //.
    f_equal. apply set_eq. intros e. rewrite elem_of_list_to_set. apply Hus.
  - intros x Hxa Hxb. by rewrite Hu !decide_False.
Qed.

Lemma redirect_in_success σ us a b :
  edge_symmetric σ → a ≠ b → b ∈ dom σ →
  NoDup us → (∀ e, e ∈ us → e ∈ users_of σ a) →
  is_Some (redirect_in σ us a (Some b)).
Proof.
  intros Hsym Hne Hb Hnd Hus. rewrite redirect_in_unfold //.
  apply apply_relinks_success; [done..|].
  intros r n Hin%Hus. split; [by apply Hsym|done].
Qed.

(** Redirecting a node onto itself changes nothing. *)
Lemma redirect_in_self σ us a :
  edge_symmetric σ → (∀ e, e ∈ us → e ∈ users_of σ a) →
  redirect_in σ us a (Some a) = Some σ.
Proof.
  intros Hsym Hus. unfold redirect_in, redirect_operations_in, commit.
  rewrite redirect_loop_same //.
  intros r n Hin. by apply Hsym, Hus.
Qed.

(** Equal edges and equal length make equal lists of inputs. *)
Lemma inputs_eq (l1 l2 : list (option nat)) :
  length l1 = length l2 →
  (∀ i, mjoin (l1 !! i) = mjoin (l2 !! i)) → l1 = l2.
Proof.
  intros Hlen Hj. apply list_eq. intros i.
  specialize (Hj i).
  destruct (l1 !! i) as [o1|] eqn:E1, (l2 !! i) as [o2|] eqn:E2;
    simplify_eq/=; try done.
  - apply lookup_lt_Some in E1. apply lookup_ge_None in E2. lia.
  - apply lookup_lt_Some in E2. apply lookup_ge_None in E1. lia.
Qed.

Lemma forward_edges_eq σ σ' a s :
  σ !! a = Some s → dom σ' = dom σ →
  (∀ q, succ_at σ' a q = succ_at σ a q) →
  inputs_len σ' a = inputs_len σ a →
  ∃ s', σ' !! a = Some s' ∧ fn s' = fn s ∧ inputs s' = inputs s.
Proof.
  intros Ha Hd Hs Hl.
  assert (is_Some (σ' !! a)) as [s' Ha'].
  { apply elem_of_dom. rewrite Hd. by apply elem_of_dom. }
  exists s'. split; [done|]. split.
  - specialize (Hs FN). by rewrite /succ_at Ha Ha' in Hs.
  - rewrite /inputs_len Ha Ha' /= in Hl. apply inputs_eq; [done|].
    intros i. specialize (Hs (IN i)). by rewrite /succ_at Ha Ha' in Hs.
Qed.

(** *** [set_app] *)


(** Unlinking the inputs [l] found at the positions from [k] on. *)
Lemma apply_unlinks a l k σ σ' :
  (∀ j, succ_at σ a (IN (k + j)) = mjoin (l !! j)) →
  apply_operations σ (enumerate_ops (λ i inp, Unlink a inp (IN i)) k l)
  = Some σ' →
  (∀ j, succ_at σ' a (IN (k + j)) = None) ∧
  (∀ x q, x ≠ a ∨ role_extent q ≤ k → succ_at σ' x q = succ_at σ x q) ∧
  (∀ x, inputs_len σ' x = inputs_len σ x) ∧
  dom σ' = dom σ.
Proof.
  revert k σ. induction l as [|[inp|] l IH]; intros k σ Hl Happ; simpl in Happ.
  - simplify_eq. split_and!; try done; intros j; by rewrite Hl lookup_nil.
  - destruct (process_operation σ (Unlink a inp (IN k))) as [σ1|] eqn:H1;
      simplify_eq/=.
    apply unlink_effect in H1 as (_ & _ & Hs1 & _ & Hl1 & Hd1).
    apply IH in Happ as (Hnone & Hs & Hlen & Hd).
    + split_and!.
      * intros [|j].
        -- rewrite Nat.add_0_r Hs; [|simpl; lia].
           rewrite Hs1 decide_True //.
        -- replace (k + S j) with (S k + j) by lia. apply Hnone.
      * intros x q Hxq. rewrite Hs; [|simpl in *; lia].
        rewrite Hs1 decide_False //. intros [-> ->]. simpl in *. lia.
      * intros x. by rewrite Hlen Hl1.
      * by rewrite Hd Hd1.
    + intros j. rewrite Hs1 decide_False; [|intros [_ ?]; simplify_eq; lia].
      replace (S k + j) with (k + S j) by lia. by rewrite Hl.
  - apply IH in Happ as (Hnone & Hs & Hlen & Hd).
    + split_and!; try done.
      * intros [|j].
        -- rewrite Nat.add_0_r Hs; [|simpl; lia].
           specialize (Hl 0). by rewrite Nat.add_0_r in Hl.
        -- replace (k + S j) with (S k + j) by lia. apply Hnone.
      * intros x q Hxq. apply Hs. simpl in *. lia.
    + intros j. replace (S k + j) with (k + S j) by lia. by rewrite Hl.
Qed.

(** Linking the inputs [l] at the positions from [k] on, all empty. *)
Lemma apply_links a l k σ σ' :
  (∀ j, succ_at σ a (IN (k + j)) = None) →
  apply_operations σ (enumerate_ops (λ i inp, Link a inp (IN i)) k l)
  = Some σ' →
  (∀ j, succ_at σ' a (IN (k + j)) = mjoin (l !! j)) ∧
  (∀ x q, x ≠ a ∨ role_extent q ≤ k → succ_at σ' x q = succ_at σ x q) ∧
  inputs_len σ' a
  = match occupied_len l with
    | 0 => inputs_len σ a
    | S n => inputs_len σ a `max` (k + S n)
    end ∧
  dom σ' = dom σ.
Proof.
  revert k σ. induction l as [|[inp|] l IH]; intros k σ Hl Happ; simpl in Happ.
  - simplify_eq. split_and!; try done; intros j; by rewrite Hl lookup_nil.
  - destruct (process_operation σ (Link a inp (IN k))) as [σ1|] eqn:H1;
      simplify_eq/=.
    pose proof (link_inputs_len _ _ _ _ _ a H1) as Hl1.
    rewrite decide_True // in Hl1.
    apply link_effect in H1 as (_ & Hs1 & _ & Hd1).
    apply IH in Happ as (Hnew & Hs & Hlen & Hd).
    + split_and!.
      * intros [|j].
        -- rewrite Nat.add_0_r Hs; [|simpl; lia].
           rewrite Hs1 decide_True //.
        -- replace (k + S j) with (S k + j) by lia. apply Hnew.
      * intros x q Hxq. rewrite Hs; [|simpl in *; lia].
        rewrite Hs1 decide_False //. intros [-> ->]. simpl in *. lia.
      * rewrite Hlen Hl1 /=. destruct (occupied_len l); lia.
      * by rewrite Hd Hd1.
    + intros j. rewrite Hs1 decide_False; [|intros [_ ?]; simplify_eq; lia].
      replace (S k + j) with (k + S j) by lia. by rewrite Hl.
  - apply IH in Happ as (Hnew & Hs & Hlen & Hd).
    + split_and!; try done.
      * intros [|j].
        -- rewrite Nat.add_0_r Hs; [|simpl; lia].
           specialize (Hl 0). by rewrite Nat.add_0_r in Hl.
        -- replace (k + S j) with (S k + j) by lia. apply Hnew.
      * intros x q Hxq. apply Hs. simpl in *. lia.
      * rewrite Hlen /=. destruct (occupied_len l); [done|]. f_equal. lia.
    + intros j. replace (S k + j) with (k + S j) by lia. by rewrite Hl.
Qed.

(** The operations that retarget the function edge. *)
Lemma apply_set_fn σ a f ops σ' :
  set_succ_operations σ a FN f = Some ops →
  apply_operations σ ops = Some σ' →
  succ_at σ' a FN = f ∧
  (∀ x q, x ≠ a ∨ q ≠ FN → succ_at σ' x q = succ_at σ x q) ∧
  (∀ x, inputs_len σ' x = inputs_len σ x) ∧
  dom σ' = dom σ.
Proof.
  unfold set_succ_operations. intros Hops Happ.
  destruct (σ !! a) as [s|] eqn:Ha; simplify_eq/=.
  assert (Hfn : succ_at σ a FN = fn s) by by rewrite /succ_at Ha.
  destruct (fn s) as [u|] eqn:Hu; [destruct (decide (Some u = f)) as [<-|Hne]|];
    [|destruct f as [n|]..]; simplify_eq/=.
  - done.
  - destruct (process_operation σ (Unlink a u FN)) as [σ1|] eqn:H1;
      simplify_eq/=.
    destruct (process_operation σ1 (Link a n FN)) as [σ2|] eqn:H2;
      simplify_eq/=.
    apply unlink_effect in H1 as (_ & _ & Hs1 & _ & Hl1 & Hd1).
    pose proof (λ x, link_inputs_len _ _ _ _ _ x H2) as Hl2.
    apply link_effect in H2 as (_ & Hs2 & _ & Hd2).
    split_and!.
    + by rewrite Hs2 decide_True.
    + intros x q Hxq. rewrite Hs2 Hs1 !decide_False //; naive_solver.
    + intros x. rewrite Hl2 /=. goal_decide; subst; rewrite Hl1; lia.
    + by rewrite Hd2 Hd1.
  - destruct (process_operation σ (Unlink a u FN)) as [σ1|] eqn:H1;
      simplify_eq/=.
    apply unlink_effect in H1 as (_ & _ & Hs1 & _ & Hl1 & Hd1).
    split_and!; try done.
    + by rewrite Hs1 decide_True.
    + intros x q Hxq. rewrite Hs1 !decide_False //; naive_solver.
  - destruct (process_operation σ (Link a n FN)) as [σ2|] eqn:H2;
      simplify_eq/=.
    pose proof (λ x, link_inputs_len _ _ _ _ _ x H2) as Hl2.
    apply link_effect in H2 as (_ & Hs2 & _ & Hd2).
    split_and!; try done.
    + by rewrite Hs2 decide_True.
    + intros x q Hxq. rewrite Hs2 !decide_False //; naive_solver.
    + intros x. rewrite Hl2 /=. goal_decide; subst; lia.
  - done.
Qed.

Lemma set_app_effect σ a s f ins σ' :
  σ !! a = Some s →
  set_app σ a (Some f) ins = Some σ' →
  succ_at σ' a FN = Some f ∧
  (∀ i, succ_at σ' a (IN i) = mjoin (ins !! i)) ∧
  inputs_len σ' a = length (inputs s) `max` occupied_len ins ∧
  (∀ x q, x ≠ a → succ_at σ' x q = succ_at σ x q) ∧
  dom σ' = dom σ.
Proof.
  intros Ha. unfold set_app, set_app_operations, commit.
  destruct (set_succ_operations σ a FN (Some f)) as [rval|] eqn:Hops; [|done].
  rewrite Ha /= apply_operations_app.
  destruct (apply_operations σ rval) as [σ1|] eqn:H1; [|done]. simpl.
  rewrite apply_operations_app.
  destruct (apply_operations σ1 _) as [σ2|] eqn:H2; [|done]. simpl.
  intros H3.
  destruct (apply_set_fn _ _ _ _ _ Hops H1) as (Hf1 & Hs1 & Hl1 & Hd1).
  apply apply_unlinks in H2 as (Hnone2 & Hs2 & Hl2 & Hd2).
  2:{ intros j. rewrite Hs1; [|by right]. by rewrite /succ_at Ha. }
  apply apply_links in H3 as (Hnew3 & Hs3 & Hl3 & Hd3); [|done].
  split_and!.
  - rewrite Hs3; [|simpl; lia]. rewrite Hs2; [|simpl; lia]. done.
  - apply Hnew3.
  - rewrite Hl3 Hl2 Hl1 (inputs_len_lookup _ _ _ Ha).
    destruct (occupied_len ins); lia.
  - intros x q Hx. rewrite Hs3; [|by left]. rewrite Hs2; [|by left].
    apply Hs1. by left.
  - by rewrite Hd3 Hd2 Hd1.
Qed.

(** Without a function only the function edge is cleared. *)
Lemma set_app_None_effect σ a s ins σ' :
  σ !! a = Some s →
  set_app σ a None ins = Some σ' →
  succ_at σ' a FN = None ∧
  (∀ x q, x ≠ a ∨ q ≠ FN → succ_at σ' x q = succ_at σ x q) ∧
  (∀ x, inputs_len σ' x = inputs_len σ x) ∧
  dom σ' = dom σ.
Proof.
  intros Ha. unfold set_app, set_app_operations, commit.
  destruct (set_succ_operations σ a FN None) as [rval|] eqn:Hops; [|done].
  rewrite Ha /= app_nil_r. intros H1.
  by apply (apply_set_fn _ _ _ _ _ Hops H1).
Qed.

Lemma occupied_len_le l : occupied_len l ≤ length l.
Proof.
  induction l as [|o l IH]; simpl; [done|].
  destruct (occupied_len l), o; lia.
Qed.

Lemma occupied_len_nodes l :
  Forall is_Some l → occupied_len l = length l.
Proof.
  induction 1 as [|o l [n ->] _ IH]; simpl; [done|].
  rewrite IH. by destruct (length l).
Qed.

Lemma apply_unlinks_success a l k σ :
  edge_symmetric σ →
  (∀ j, succ_at σ a (IN (k + j)) = mjoin (l !! j)) →
  is_Some (apply_operations σ
             (enumerate_ops (λ i inp, Unlink a inp (IN i)) k l)).
Proof.
  revert k σ. induction l as [|[inp|] l IH]; intros k σ Hsym Hl; simpl.
  - eauto.
  - assert (succ_at σ a (IN k) = Some inp) as Hk.
    { specialize (Hl 0). by rewrite Nat.add_0_r in Hl. }
    destruct (unlink_success σ a inp (IN k)) as [σ1 H1]; [done|by apply Hsym|].
    rewrite H1 /=. apply IH; [by eapply process_operation_edge_symmetric|].
    apply unlink_effect in H1 as (_ & _ & Hs1 & _).
    intros j. rewrite Hs1 decide_False; [|intros [_ ?]; simplify_eq; lia].
    replace (S k + j) with (k + S j) by lia. by rewrite Hl.
  - apply IH; [done|].
    intros j. replace (S k + j) with (k + S j) by lia. by rewrite Hl.
Qed.

Lemma apply_links_success a l k σ :
  a ∈ dom σ → (∀ n, Some n ∈ l → n ∈ dom σ) →
  (∀ j, succ_at σ a (IN (k + j)) = None) →
  is_Some (apply_operations σ
             (enumerate_ops (λ i inp, Link a inp (IN i)) k l)).
Proof.
  revert k σ. induction l as [|[inp|] l IH]; intros k σ Ha Hdom Hl; simpl.
  - eauto.
  - destruct (link_success σ a inp (IN k)) as [σ1 H1]; [done|set_solver| |].
    { specialize (Hl 0). by rewrite Nat.add_0_r in Hl. }
    rewrite H1 /=.
    apply link_effect in H1 as (_ & Hs1 & _ & Hd1).
    apply IH; [by rewrite Hd1| |].
    + intros n Hn. rewrite Hd1. set_solver.
    + intros j. rewrite Hs1 decide_False; [|intros [_ ?]; simplify_eq; lia].
      replace (S k + j) with (k + S j) by lia. by rewrite Hl.
  - apply IH; [done|set_solver|].
    intros j. replace (S k + j) with (k + S j) by lia. by rewrite Hl.
Qed.

Lemma set_fn_success σ a f :
  edge_symmetric σ → a ∈ dom σ → (∀ n, f = Some n → n ∈ dom σ) →
  ∃ ops, set_succ_operations σ a FN f = Some ops ∧
         is_Some (apply_operations σ ops).
Proof.
  intros Hsym [s Ha]%elem_of_dom Hf. unfold set_succ_operations.
  rewrite Ha /=.
  assert (Hfn : succ_at σ a FN = fn s) by by rewrite /succ_at Ha.
  eexists; split; [done|].
  destruct (fn s) as [u|] eqn:Hu; [goal_decide|]; simpl; [eauto|..].
  - destruct (unlink_success σ a u FN) as [σ1 H1]; [done|by apply Hsym|].
    rewrite H1 /=. destruct f as [f0|]; simpl; [|eauto].
    pose proof H1 as (_ & _ & Hs1 & _ & _ & Hd1)%unlink_effect.
    destruct (link_success σ1 a f0 FN) as [σ2 H2].
    + rewrite Hd1. by apply elem_of_dom.
    + rewrite Hd1. by apply Hf.
    + by rewrite Hs1 decide_True.
    + rewrite H2 /=. eauto.
  - destruct f as [f0|]; simpl; [|eauto].
    destruct (link_success σ a f0 FN) as [σ2 H2];
      [by apply elem_of_dom|by apply Hf|done|].
    rewrite H2 /=. eauto.
Qed.

Lemma set_app_success σ a f ins :
  edge_symmetric σ → a ∈ dom σ → f ∈ dom σ →
  (∀ n, Some n ∈ ins → n ∈ dom σ) →
  is_Some (set_app σ a (Some f) ins).
Proof.
  intros Hsym Ha Hf Hins.
  destruct (set_fn_success σ a (Some f) Hsym Ha) as (ops & Hops & [σ1 H1]).
  { by intros n [= <-]. }
  pose proof Ha as [s Hs]%elem_of_dom.
  unfold set_app, set_app_operations, commit. rewrite Hops Hs /=.
  rewrite apply_operations_app H1 /= apply_operations_app.
  destruct (apply_set_fn _ _ _ _ _ Hops H1) as (_ & Hs1 & _ & Hd1).
  destruct (apply_unlinks_success a (inputs s) 0 σ1) as [σ2 H2].
  { by eapply apply_operations_edge_symmetric. }
  { intros j. rewrite Hs1; [|by right]. by rewrite /succ_at Hs. }
  rewrite H2 /=.
  apply apply_unlinks in H2 as (Hnone & _ & _ & Hd2).
  2:{ intros j. rewrite Hs1; [|by right]. by rewrite /succ_at Hs. }
  apply apply_links_success; [by rewrite Hd2 Hd1| |done].
  intros n Hn. rewrite Hd2 Hd1. by apply Hins.
Qed.

(** *** [toposort] *)

Lemma toposort_body_unfold σ node n st :
  σ !! node = Some n →
  toposort_body σ node st
  = toposort_body_in σ node n st (elements (successors n)).
Proof. intros H. unfold toposort_body. by rewrite H. Qed.

(** The function [toposort] follows one of the runs of the loop. *)
Lemma toposort_fuel_loop fuel σ st r :
  toposort_fuel fuel σ st = r → r ≠ Raise OutOfFuel → toposort_loop σ st r.
Proof.
  revert st. induction fuel as [|fuel IH]; intros st; simpl;
    destruct (elements (ready st)) as [|node l] eqn:E.
  - intros <- _. apply loop_done.
    by apply elements_empty_inv in E as ->%leibniz_equiv.
  - by intros <-.
  - intros <- _. apply loop_done.
    by apply elements_empty_inv in E as ->%leibniz_equiv.
  - assert (node ∈ ready st) as Hin.
    { apply elem_of_elements. rewrite E. set_solver. }
    destruct (σ !! node) as [n|] eqn:Hn.
    + rewrite (toposort_body_unfold _ _ _ _ Hn).
      destruct (toposort_body_in σ node n (pop node st) _) as [st'|e] eqn:Hb;
        simpl.
      * intros Hr Hne. eapply loop_step; eauto.
      * intros <- _. by eapply loop_raise.
    + unfold toposort_body. rewrite Hn /=. intros <- _.
      by eapply loop_dangling.
Qed.

Lemma toposort_run_sound σ g r :
  toposort σ g = r → r ≠ Raise OutOfFuel → toposort_run σ g r.
Proof.
  unfold toposort, toposort_run.
  destruct (output g) as [out|]; [|done].
  destruct (σ !! out) as [n|]; [|done].
  destruct (is_computation n); [|done].
  apply toposort_fuel_loop.
Qed.

Lemma toposort_not_computation σ g out n :
  output g = Some out → σ !! out = Some n → is_computation n = false →
  toposort σ g = Ok [] ∧ ∀ r, toposort_run σ g r ↔ r = Ok [].
Proof.
  intros Ho Hn Hc. unfold toposort, toposort_run. by rewrite Ho Hn Hc.
Qed.

(** **** The bound on the turns of the loop is never reached *)

Lemma size_pos_elem `{Countable K} (X : gset K) x : x ∈ X → 0 < size X.
Proof.
  intros Hx. destruct (size X) eqn:E; [|lia].
  apply size_empty_inv in E. set_solver.
Qed.

Lemma visit_succ_pending σ node st succ st' :
  visit_succ σ node st succ = Ok st' → pending σ st' ≤ pending σ st.
Proof.
  unfold visit_succ. destruct (σ !! succ) as [s|] eqn:Hs; [|done].
  set (pred1 := match pred st !! succ with
                | Some _ => pred st
                | None => <[succ:=Some (set_map snd (users s))]> (pred st)
                end).
  assert (∀ x, pred1 !! x ≠ Some None ↔ pred st !! x ≠ Some None) as Hp1.
  { intros x. unfold pred1. destruct (pred st !! succ) eqn:E; [done|].
    destruct (decide (x = succ)) as [->|Hne].
    - rewrite lookup_insert_eq E. split; intros _; done.
    - by rewrite lookup_insert_ne. }
  destruct (pred1 !! succ) as [[d|]|] eqn:Hd; [|done..].
  destruct (decide (node ∈ d)); [|done].
  destruct (decide (size (d ∖ {[node]}) = 0)); intros [= <-];
    unfold pending; simpl.
  - assert (filter (λ x, <[succ:=None]> pred1 !! x ≠ Some None) (dom σ)
            ⊆ filter (λ x, pred st !! x ≠ Some None) (dom σ) ∖ {[succ]}) as Hsub.
    { intros x. rewrite elem_of_difference !elem_of_filter.
      intros [Hx Hdom]. destruct (decide (x = succ)) as [->|Hne].
      - by rewrite lookup_insert_eq in Hx.
      - rewrite lookup_insert_ne // in Hx. split; [|set_solver].
        split; [by apply Hp1|done]. }
    assert (succ ∈ filter (λ x, pred st !! x ≠ Some None) (dom σ)) as Hmem.
    { apply elem_of_filter. split.
      - apply Hp1. by rewrite Hd.
      - by apply elem_of_dom. }
    apply subseteq_size in Hsub.
    rewrite size_difference in Hsub; [|by apply singleton_subseteq_l].
    rewrite size_singleton in Hsub.
    pose proof (size_pos_elem _ _ Hmem).
    pose proof (size_union_alt (ready st) {[succ]}) as Hu.
    assert (size (({[succ]} : gset nat) ∖ ready st) ≤ 1).
    { rewrite -(size_singleton (C := gset nat) succ).
      apply subseteq_size. set_solver. }
    lia.
  - assert (filter (λ x, <[succ:=Some (d ∖ {[node]})]> pred1 !! x ≠ Some None)
              (dom σ)
            ⊆ filter (λ x, pred st !! x ≠ Some None) (dom σ)) as Hsub.
    { intros x. rewrite !elem_of_filter.
      intros [Hx Hdom]. split; [|done]. destruct (decide (x = succ)) as [->|Hne].
      - apply Hp1. by rewrite Hd.
      - rewrite lookup_insert_ne // in Hx. by apply Hp1. }
    apply subseteq_size in Hsub. lia.
Qed.

Lemma visit_succs_pending σ node succs st st' :
  visit_succs σ node st succs = Ok st' → pending σ st' ≤ pending σ st.
Proof.
  revert st. induction succs as [|succ succs IH]; intros st; simpl.
  - by intros [= <-].
  - destruct (visit_succ σ node st succ) as [st1|e] eqn:H1; [|done]. simpl.
    intros H2%IH. apply visit_succ_pending in H1. lia.
Qed.

Lemma visit_succs_fuel σ node succs st :
  visit_succs σ node st succs ≠ Raise OutOfFuel.
Proof.
  revert st. induction succs as [|succ succs IH]; intros st; simpl; [done|].
  destruct (visit_succ σ node st succ) as [st1|e] eqn:H1; simpl; [apply IH|].
  intros [= ->]. unfold visit_succ in H1. cbv zeta in H1.
  repeat case_match; simplify_eq.
Qed.

Lemma toposort_body_pending σ node st st' :
  node ∈ ready st →
  toposort_body σ node (pop node st) = Ok st' →
  pending σ st' < pending σ st.
Proof.
  intros Hin. unfold toposort_body, toposort_body_in.
  assert (pending σ (pop node st) < pending σ st) as Hpop.
  { unfold pending, pop. simpl. rewrite size_difference; [|set_solver].
    rewrite size_singleton.
    assert (0 < size (ready st)) by by eapply size_pos_elem. lia. }
  destruct (σ !! node) as [n|]; [|done].
  destruct (negb (is_computation n)); [by intros [= <-]|].
  destruct (decide _); [done|].
  intros H%visit_succs_pending. unfold pending in *. simpl in *. lia.
Qed.

Lemma toposort_body_fuel σ node st :
  toposort_body σ node st ≠ Raise OutOfFuel.
Proof.
  unfold toposort_body, toposort_body_in.
  destruct (σ !! node) as [n|]; [|done].
  destruct (negb (is_computation n)); [done|].
  destruct (decide _); [done|]. apply visit_succs_fuel.
Qed.

Lemma toposort_fuel_enough fuel σ st :
  pending σ st ≤ fuel → toposort_fuel fuel σ st ≠ Raise OutOfFuel.
Proof.
  revert st. induction fuel as [|fuel IH]; intros st Hp; simpl;
    destruct (elements (ready st)) as [|node l] eqn:E; try done.
  - assert (node ∈ ready st) as Hin.
    { apply elem_of_elements. rewrite E. set_solver. }
    apply size_pos_elem in Hin. unfold pending in Hp. lia.
  - assert (node ∈ ready st) as Hin.
    { apply elem_of_elements. rewrite E. set_solver. }
    destruct (toposort_body σ node (pop node st)) as [st'|e] eqn:Hb; simpl.
    + apply IH. apply toposort_body_pending in Hb; [lia|done].
    + intros [= ->]. by eapply toposort_body_fuel.
Qed.

(** [toposort] never stops for lack of fuel. *)
Lemma toposort_total σ g : toposort σ g ≠ Raise OutOfFuel.
Proof.
  unfold toposort. destruct (output g) as [out|]; [|done].
  destruct (σ !! out) as [n|]; [|done].
  destruct (is_computation n); [|done].
  apply toposort_fuel_enough. unfold pending, toposort_bound.
  change (ready (toposort_init out)) with ({[out]} : gset nat).
  change (pred (toposort_init out)) with (∅ : gmap nat (option (gset nat))).
  rewrite size_singleton.
  apply le_n_S. rewrite -(size_dom (D := gset nat)).
  apply subseteq_size. by intros x [_ ?]%elem_of_filter.
Qed.

Lemma acyclic_by_rank σ (rank : nat → nat) :
  (∀ a r b, succ_at σ a r = Some b → rank b < rank a) → acyclic σ.
Proof.
  intros Hrank.
  assert (∀ a b, reachable σ a b → rank b ≤ rank a) as Hle.
  { induction 1 as [|a r b c Hab _ IH]; [done|].
    apply Hrank in Hab. lia. }
  intros a r b Hab Hba. apply Hrank in Hab. apply Hle in Hba. lia.
Qed.

Lemma toposort_run_loop σ g out n r :
  output g = Some out → σ !! out = Some n → is_computation n = true →
  toposort_run σ g r → toposort_loop σ (toposort_init out) r.
Proof. intros Ho Hn Hc. unfold toposort_run. by rewrite Ho Hn Hc. Qed.

(** Every run of the loop is one of those that [explore] follows. *)
Lemma explore_sound fuel σ st check r :
  explore fuel σ st check = true → toposort_loop σ st r → check r = true.
Proof.
  intros He Hl. revert fuel He.
  induction Hl as [st Hr|st node n succs st' r Hin Hn Hp Hb Hl IH
                   |st node n succs e Hin Hn Hp Hb|st node Hin Hn];
    intros [|fuel] He; simpl in He; try done.
  - by rewrite decide_True in He.
  - rewrite decide_False in He; [|set_solver].
    apply Is_true_true, forallb_True in He.
    eapply Forall_forall in He; [|by apply elem_of_elements].
    rewrite Hn in He. apply forallb_True in He.
    eapply Forall_forall in He; [|by apply permutations_Permutation].
    rewrite Hb in He. by eapply IH, Is_true_true.
  - rewrite decide_False in He; [|set_solver].
    apply Is_true_true, forallb_True in He.
    eapply Forall_forall in He; [|by apply elem_of_elements].
    rewrite Hn in He. apply forallb_True in He.
    eapply Forall_forall in He; [|by apply permutations_Permutation].
    rewrite Hb in He. by apply Is_true_true.
  - rewrite decide_False in He; [|set_solver].
    apply Is_true_true, forallb_True in He.
    eapply Forall_forall in He; [|by apply elem_of_elements].
    rewrite Hn in He. by apply Is_true_true.
Qed.

(** All the runs of [toposort] on a graph return [res] when the
    exploration of the runs, at most [fuel] turns long, finds nothing
    else. *)
Lemma explore_runs fuel σ g out n res r :
  output g = Some out → σ !! out = Some n → is_computation n = true →
  explore fuel σ (toposort_init out) (λ r, bool_decide (r = res)) = true →
  toposort_run σ g r → r = res.
Proof.
  intros Ho Hn Hc He Hr.
  eapply toposort_run_loop in Hr; [|done..].
  eapply bool_decide_eq_true_1.
  exact (explore_sound _ _ _ (λ r, bool_decide (r = res)) r He Hr).
Qed.

Ltac example_runs :=
  let H := fresh "H" in
  intros H; eapply (explore_runs 8) in H; [exact H|by vm_compute..].

Lemma replaced_runs r :
  toposort_run (built replaced_build) example_graph r → r = Ok [4; 1].
Proof. example_runs. Qed.

Lemma inner_cycle_runs r :
  toposort_run (built inner_cycle_build) example_graph r → r = Ok [1].
Proof. example_runs. Qed.

Lemma outer_cycle_runs r :
  toposort_run (built outer_cycle_build) example_graph r →
  r = Raise CycleDetected.
Proof. example_runs. Qed.

Lemma built_edge_symmetric ms g :
  mutate_all (example_nodes, example_graph) ms = Some (built ms, g) →
  edge_symmetric (built ms).
Proof.
  intros Hs.
  apply (mutate_all_edge_symmetric (example_nodes, example_graph) ms
           (built ms, g)); [|done].
  apply fresh_store_edge_symmetric.
Qed.

Lemma succ_at_dom σ a r b : succ_at σ a r = Some b → a ∈ dom σ.
Proof.
  intros H. apply elem_of_dom. unfold succ_at in H. by destruct (σ !! a).
Qed.

Lemma succ_at_successors σ a r b n :
  σ !! a = Some n → succ_at σ a r = Some b → b ∈ successors n.
Proof.
  intros Ha H. unfold succ_at in H. rewrite Ha /= in H.
  unfold successors. apply elem_of_list_to_set, list_elem_of_omap.
  exists (Some b). split; [|done].
  destruct r as [|i]; simpl in H.
  - destruct (fn n) eqn:E; simplify_eq/=. left.
  - right. destruct (inputs n !! i) as [o|] eqn:E; simplify_eq/=.
    by apply list_elem_of_lookup_2 in E.
Qed.

Lemma acyclic_ranked σ rank : ranked σ rank = true → acyclic σ.
Proof.
  intros Hc. apply (acyclic_by_rank _ rank). intros a r b H.
  destruct (σ !! a) as [n|] eqn:Ha;
    [|by unfold succ_at in H; rewrite Ha in H].
  pose proof (succ_at_successors _ _ _ _ _ Ha H) as Hb.
  unfold ranked in Hc. rewrite forallb_forall in Hc.
  specialize (Hc (a, n)). rewrite forallb_forall in Hc.
  apply Nat.ltb_lt, Hc.
  - apply list_elem_of_In. by apply elem_of_map_to_list.
  - apply list_elem_of_In. by apply elem_of_elements.
Qed.

Lemma replaced_acyclic : acyclic (built replaced_build).
Proof.
  apply (acyclic_ranked _
           (λ a, match a with 0 => 0 | 2 => 1 | 1 => 3 | _ => 2 end)).
  by vm_compute.
Qed.

(** ** The A-normal transformer *)

Import ANormalTransformer.

Lemma bind_Ok {A B} (m : M A) (f : A → M B) g x :
  (m ≫= f) g = Ok x → ∃ a g1, m g = Ok (a, g1) ∧ f a g1 = Ok x.
Proof.
  unfold mbind, M_bind. destruct (m g) as [[a g1]|e]; [eauto|done].
Qed.

Lemma lift_Ok {A} (r : result A) g x :
  lift r g = Ok x → ∃ a, r = Ok a ∧ x = (a, g).
Proof. unfold lift. destruct r; naive_solver. Qed.

Lemma ret_Ok {A} (a : A) g x : mret (M := M) a g = Ok x → x = (a, g).
Proof. unfold mret, M_ret. congruence. Qed.

(** Taking a computation of [M] that returned apart. *)
Tactic Notation "inv_bind" hyp(H) "as" simple_intropattern(a)
    simple_intropattern(g) ident(H1) :=
  apply bind_Ok in H as (a & g & H1 & H); cbv beta iota zeta in H.

Ltac inv_M H :=
  lazymatch type of H with
  | mret _ _ = Ok _ => apply ret_Ok in H; simplify_eq
  | raise _ _ = Ok _ => discriminate H
  | lift _ _ = Ok _ => apply lift_Ok in H as (? & ? & ?); simplify_eq
  end.

Lemma normal_atom e : is_atom e → normal e.
Proof. by destruct e. Qed.

Lemma normal_Let bs b :
  normal (Let bs b) ↔ Forall (λ x, normal x.2) bs ∧ normal b.
Proof.
  unfold normal. simpl. rewrite !andb_True.
  assert (Forall (λ x, normal x.2) bs
          ↔ forallb (λ x, anf x.2) bs ∧ forallb (λ x, begin_free x.2) bs) as ->.
  { induction bs as [|x bs IH]; simpl.
    - rewrite Forall_nil. tauto.
    - rewrite Forall_cons IH /normal !andb_True. tauto. }
  tauto.
Qed.

Lemma forallb_atom_Forall l : forallb is_atom l ↔ Forall is_atom l.
Proof.
  induction l as [|x l IH]; simpl.
  - rewrite Forall_nil. tauto.
  - rewrite Forall_cons andb_True IH. tauto.
Qed.

Lemma forallb_atom_begin_free l : Forall is_atom l → forallb begin_free l.
Proof.
  induction 1 as [|x l Hx _ IH]; simpl; [done|].
  apply andb_True. split; [by destruct x|done].
Qed.

Lemma stash_good st res name g r bs g' :
  stash st res name g = Ok ((r, bs), g') →
  normal res →
  normal r ∧ Forall (λ b, normal b.2) bs ∧
  (st ≠ NoStash → is_atom r) ∧ (st = NoStash → bs = []).
Proof.
  unfold stash. intros H Hres. destruct st as [|n].
  - inv_M H. by split_and!.
  - inv_bind H as sym g1 Hsym. inv_M H.
    split_and!; try done. by apply Forall_singleton.
Qed.

Section methods_good.
Variable rec : Expr → Stash → M (Expr * list binding).
Hypothesis Hrec : good rec.

Lemma transform_tagged_good base l g new_args bs g' :
  Forall (λ p, is_Some p.2) l →
  transform_tagged rec base l g = Ok ((new_args, bs), g') →
  Forall is_atom new_args ∧ Forall (λ b, normal b.2) bs.
Proof.
  intros Hl. revert g new_args bs g'.
  induction Hl as [|[arg tag] l [t Ht] _ IH]; intros g new_args bs g' H;
    simpl in *.
  - inv_M H. by split.
  - subst tag. inv_bind H as [new_arg bs1] g1 Harg.
    inv_bind H as [new_args' bs2] g2 Hargs. inv_M H.
    apply Hrec in Harg as (_ & Hbs & Hat & _).
    apply IH in Hargs as [Hargs Hbs'].
    split; [|by apply Forall_app].
    apply Forall_cons. split; [by apply Hat|done].
Qed.

Lemma transform_arguments_good args constructor st base_name tags :
  (∀ l e, Forall is_atom l → constructor l = Ok e →
          normal e ∧ negb (is_Let e)) →
  (∀ t, tags = Some t → Forall is_Some t) →
  ∀ g r bs g',
    transform_arguments rec args constructor st base_name tags g
    = Ok ((r, bs), g') →
    normal r ∧ Forall (λ b, normal b.2) bs ∧
    (st ≠ NoStash → is_atom r) ∧ (st = NoStash → bs = []).
Proof.
  intros Hcons Htags g r bs g' H. unfold transform_arguments in H.
  inv_bind H as [[[new_args0 bindings0] args'] base] g1 Hfn.
  inv_bind H as [new_args bindings1] g2 Hargs.
  inv_bind H as app g3 Happ. inv_M Happ.
  inv_bind H as result g4 Hres.
  assert (Forall is_atom new_args0 ∧ Forall (λ b, normal b.2) bindings0)
    as [Hat0 Hbs0].
  { destruct base_name as [b|].
    - inv_M Hfn. by split.
    - destruct args as [|f args]; [inv_M Hfn|].
      inv_bind Hfn as [f' bs'] g5 Hf. inv_bind Hfn as bn g6 Hbn.
      inv_M Hbn. inv_M Hfn.
      apply Hrec in Hf as (_ & Hbs & Hat & _).
      split; [|done]. apply Forall_singleton. by apply Hat. }
  apply transform_tagged_good in Hargs as [Hat1 Hbs1].
  2:{ apply Forall_forall. intros [arg tag] Hin.
      apply elem_of_zip_r in Hin. simpl.
      destruct tags as [t|].
      - specialize (Htags t eq_refl).
        by eapply Forall_forall in Htags.
      - apply elem_of_lookup_imap_1 in Hin as (i & y & -> & _). eauto. }
  match goal with
  | Hc : constructor _ = Ok _ |- _ =>
      destruct (Hcons _ _ (proj2 (Forall_app _ _ _) (conj Hat0 Hat1)) Hc)
        as [Hnapp _]
  end.
  assert (normal result).
  { destruct st.
    - inv_bind Hres as [sym bs'] g5 Hst. inv_M Hres.
      unfold stash in Hst. inv_bind Hst as sym' g6 Hsym. inv_M Hst.
      apply normal_Let. split; [|done].
      rewrite !Forall_app Forall_singleton. by split_and!.
    - inv_M Hres. destruct (bindings0 ++ bindings1) eqn:E; [done|].
      apply normal_Let. split; [|done]. rewrite -E. by apply Forall_app. }
  by eapply stash_good.
Qed.

Lemma mapM_bindings_good bindings g bs g' :
  mapM (λ '(s, b), '(b', _) ← rec b NoStash; mret (s, b')) bindings g
  = Ok (bs, g') →
  Forall (λ b : binding, normal b.2) bs.
Proof.
  revert g bs g'. induction bindings as [|[s b] bindings IH];
    intros g bs g' H; simpl in H.
  - inv_M H. constructor.
  - inv_bind H as [s' b'] g1 Hb. inv_bind H as bs' g2 Hbs. inv_M H.
    inv_bind Hb as [b'' l] g3 Hb'. inv_M Hb.
    apply Hrec in Hb' as (Hn & _). apply IH in Hbs.
    by constructor.
Qed.

Lemma transform_Let_good bindings body st g r bs g' :
  transform_Let rec bindings body st g = Ok ((r, bs), g') →
  normal r ∧ Forall (λ b, normal b.2) bs ∧
  (st ≠ NoStash → is_atom r) ∧ (st = NoStash → bs = []).
Proof.
  unfold transform_Let. intros H.
  inv_bind H as bs' g1 Hbs. inv_bind H as [body' l] g2 Hbody.
  apply mapM_bindings_good in Hbs. apply Hrec in Hbody as (Hn & _).
  eapply stash_good; [done|]. by apply normal_Let.
Qed.

Lemma transform_Lambda_good args body gen ref st g r bs g' :
  transform_Lambda rec args body gen ref st g = Ok ((r, bs), g') →
  normal r ∧ Forall (λ b, normal b.2) bs ∧
  (st ≠ NoStash → is_atom r) ∧ (st = NoStash → bs = []).
Proof.
  unfold transform_Lambda. intros H.
  destruct (rec body NoStash (Some gen)) as [[[body' l] gen']|e] eqn:Hb;
    [|done].
  apply Hrec in Hb as (Hn & _). by eapply stash_good.
Qed.

Lemma transform_Begin_good stmts st g r bs g' :
  transform_Begin rec stmts st g = Ok ((r, bs), g') →
  normal r ∧ Forall (λ b, normal b.2) bs ∧
  (st ≠ NoStash → is_atom r) ∧ (st = NoStash → bs = []).
Proof.
  unfold transform_Begin.
  set (kept := filter _ _ ++ _). intros H.
  assert (∀ (syms : list symbol) g1 g2,
    (body ← match last syms with
            | Some s => mret (Symbol s)
            | None => raise IndexError
            end;
     transform_Let rec (zip syms kept) body st) g1 = Ok ((r, bs), g2) →
    normal r ∧ Forall (λ b, normal b.2) bs ∧
    (st ≠ NoStash → is_atom r) ∧ (st = NoStash → bs = [])) as Hlet.
  { intros syms g1 g2 Hl. inv_bind Hl as b g3 Hb.
    by eapply transform_Let_good. }
  destruct kept as [|stmt [|stmt' kept]].
  - inv_bind H as syms g1 Hsyms. by eapply (Hlet syms).
  - by apply Hrec in H.
  - inv_bind H as syms g1 Hsyms. by eapply (Hlet syms).
Qed.

Lemma dispatch_good : good (dispatch rec).
Proof.
  intros node st g r bs g' H.
  destruct node;
    cbv beta iota delta [dispatch transform_Apply transform_If
      transform_Tuple transform_Closure transform_Symbol transform_Value]
      in H.
  - refine (transform_arguments_good _ _ _ _ _ _ _ _ _ _ _ H).
    + intros [|f' a'] res Hat Hc; simplify_eq/=.
      apply Forall_cons in Hat as [Hf Ha].
      split; [|done]. unfold normal. simpl.
      rewrite !andb_True !forallb_True. split_and!; try done.
      * by destruct f'.
      * by apply forallb_True, forallb_atom_begin_free, Forall_forall,
          Forall_forall.
    + done.
  - inv_M H. by split_and!.
  - inv_M H. by split_and!.
  - by eapply transform_Let_good.
  - by eapply transform_Lambda_good.
  - refine (transform_arguments_good _ _ _ _ _ _ _ _ _ _ _ H).
    + intros [|c' [|t' [|f' [|]]]] res Hat Hc; simplify_eq/=.
      apply Forall_cons in Hat as [Hc [Ht [Hf _]%Forall_cons]%Forall_cons].
      split; [|done]. unfold normal. simpl.
      rewrite !andb_True. split_and!; try done;
        [by destruct c'|by destruct t'|by destruct f'].
    + intros t [= <-]. repeat constructor; eauto.
  - refine (transform_arguments_good _ _ _ _ _ _ _ _ _ _ _ H).
    + intros l res Hat Hc; simplify_eq/=. split; [|done].
      unfold normal. simpl.
      rewrite andb_True forallb_True. split; [done|].
      by apply forallb_atom_begin_free.
    + done.
  - refine (transform_arguments_good _ _ _ _ _ _ _ _ _ _ _ H).
    + intros [|f' a'] res Hat Hc; simplify_eq/=.
      apply Forall_cons in Hat as [Hf Ha].
      split; [|done]. unfold normal. simpl.
      rewrite !andb_True !forallb_True. split_and!; try done.
      * by destruct f'.
      * by apply forallb_True, forallb_atom_begin_free.
    + done.
  - by eapply transform_Begin_good.
Qed.
End methods_good.

Lemma transform_good fuel : good (transform fuel).
Proof.
  induction fuel as [|fuel IH].
  - by intros node st g r bs g' H.
  - by apply dispatch_good.
Qed.

(** ** The Let collapser *)

(** Induction over expression trees, through the lists of subtrees. *)
Lemma Expr_nested_ind (P : Expr → Prop)
  (HApply : ∀ f a, P f → Forall P a → P (Apply f a))
  (HSymbol : ∀ s, P (Symbol s))
  (HValue : ∀ v, P (Value v))
  (HLet : ∀ bs b, Forall (λ x, P x.2) bs → P b → P (Let bs b))
  (HLambda : ∀ args b gen ref, P b → P (Lambda args b gen ref))
  (HIf : ∀ c t f, P c → P t → P f → P (If c t f))
  (HTuple : ∀ vs, Forall P vs → P (Tuple vs))
  (HClosure : ∀ f a, P f → Forall P a → P (Closure f a))
  (HBegin : ∀ ss, Forall P ss → P (Begin ss)) :
  ∀ e, P e.
Proof.
  fix IH 1. intros [f a|s|v|bs b|args b gen ref|c t f|vs|f a|ss].
  - apply HApply; [apply IH|]. induction a; constructor; [apply IH|done].
  - apply HSymbol.
  - apply HValue.
  - apply HLet; [|apply IH].
    induction bs as [|[s x] bs IHbs]; constructor; [apply IH|done].
  - apply HLambda, IH.
  - apply HIf; apply IH.
  - apply HTuple. induction vs; constructor; [apply IH|done].
  - apply HClosure; [apply IH|]. induction a; constructor; [apply IH|done].
  - apply HBegin. induction ss; constructor; [apply IH|done].
Qed.

Lemma result_bind_Ok {A B} (f : A → result B) (m : result A) b :
  m ≫= f = Ok b ↔ ∃ a, m = Ok a ∧ f a = Ok b.
Proof. destruct m; naive_solver. Qed.

Ltac destruct_mapM :=
  match goal with
  | |- context [mapM_result ?f ?l] => destruct (mapM_result f l)
  end.

Lemma collapse_bindings_splice rec acc bs :
  CollapseLet.collapse_bindings rec acc bs
  = bs' ← mapM_result (λ x, b ← rec x.2; Ok (x.1, b)) bs;
    Ok (acc ++ (bs' ≫= splice)).
Proof.
  revert acc. induction bs as [|[s b] bs IH]; intros acc; simpl.
  - by rewrite app_nil_r.
  - destruct (rec b) as [b'|e]; simpl; [|done].
    assert (∀ acc', CollapseLet.collapse_bindings rec (acc ++ acc') bs
            = bs' ← mapM_result (λ x, b ← rec x.2; Ok (x.1, b)) bs;
              Ok (acc ++ acc' ++ (bs' ≫= splice))) as Hacc.
    { intros acc'. rewrite IH. destruct_mapM; simpl; [|done].
      by rewrite app_assoc. }
    destruct b'; simpl; rewrite -?app_assoc Hacc; by destruct_mapM.
Qed.

Lemma collapse_Let_eq bindings body :
  CollapseLet.transform (Let bindings body) = collapse_Let_spec bindings body.
Proof.
  unfold collapse_Let_spec. simpl. unfold CollapseLet.transform_Let.
  rewrite collapse_bindings_splice.
  destruct_mapM; simpl; [|done].
  destruct (CollapseLet.transform body) as [body'|e]; simpl; [|done].
  by destruct body'.
Qed.

Lemma collapse_atom e : is_atom e → CollapseLet.transform e = Ok e.
Proof. by destruct e. Qed.

Lemma collapse_atoms l :
  Forall is_atom l → mapM_result CollapseLet.transform l = Ok l.
Proof.
  induction 1 as [|x l Hx _ IH]; simpl; [done|].
  by rewrite collapse_atom // IH.
Qed.

Lemma flat_atom e : is_atom e → flat e.
Proof. by destruct e. Qed.

Lemma flat_atoms l : Forall is_atom l → forallb flat l.
Proof.
  intros H. apply forallb_True. eapply Forall_impl; [done|].
  intros x. apply flat_atom.
Qed.

Lemma flat_Let bs b :
  flat (Let bs b) ↔ Forall flat_binding bs ∧ negb (is_Let b) ∧ flat b.
Proof.
  simpl. rewrite !andb_True forallb_True.
  assert (Forall (λ x : symbol * Expr, negb (is_Let x.2) && flat x.2) bs
          ↔ Forall flat_binding bs) as ->; [|tauto].
  apply Forall_proper; [|done]. intros x. unfold flat_binding.
  by rewrite andb_True.
Qed.

Lemma splice_flat x :
  flat x.2 → normal x.2 →
  Forall flat_binding (splice x) ∧ Forall (λ y, normal y.2) (splice x).
Proof.
  destruct x as [s b]. unfold splice. simpl. intros Hf Hn.
  destruct b;
    try (split; apply Forall_singleton; [by split|done]).
  apply flat_Let in Hf as (Hbs & Hnl & Hb).
  apply normal_Let in Hn as [Hnbs Hnb].
  split; apply Forall_app; split; try done; by apply Forall_singleton.
Qed.

Lemma merge_body_flat nb body :
  Forall flat_binding nb → Forall (λ y, normal y.2) nb →
  flat body → normal body →
  flat (merge_body nb body) ∧ normal (merge_body nb body).
Proof.
  intros Hnb Hnn Hf Hn. unfold merge_body.
  destruct body;
    try (split; [by apply flat_Let|by apply normal_Let]).
  apply flat_Let in Hf as (Hbs & Hnl & Hb).
  apply normal_Let in Hn as [Hnbs Hnb'].
  split; [apply flat_Let|apply normal_Let]; rewrite Forall_app; by split_and!.
Qed.

Lemma flat_operands f a : is_atom f → Forall is_atom a → flat f && forallb flat a.
Proof.
  intros Hf Ha. apply andb_True. split; [by apply flat_atom|by apply flat_atoms].
Qed.

(** On the trees that the A-normal transformer returns, the collapser
    returns, and what it returns is flat. *)
Lemma collapse_normal e :
  normal e → ∃ r, CollapseLet.transform e = Ok r ∧ normal r ∧ flat r.
Proof.
  induction e as [f a _ _|s|v|bs b IHbs IHb|args b gen ref IHb|c t f _ _ _
                  |vs _|f a _ _|ss _] using Expr_nested_ind; intros Hn.
  - pose proof Hn as [[Hf Ha%forallb_True]%andb_True _]%andb_True.
    exists (Apply f a). split_and!; [|done|by apply flat_operands].
    simpl. unfold CollapseLet.transform_Apply.
    by rewrite collapse_atom // collapse_atoms.
  - by exists (Symbol s).
  - by exists (Value v).
  - apply normal_Let in Hn as [Hnbs Hnb].
    rewrite collapse_Let_eq. unfold collapse_Let_spec.
    assert (∃ bs', mapM_result
              (λ x, b ← CollapseLet.transform x.2; Ok (x.1, b)) bs = Ok bs'
            ∧ Forall (λ y, flat y.2 ∧ normal y.2) bs') as (bs' & -> & Hbs').
    { clear IHb Hnb. induction bs as [|[s x] bs IH]; simpl.
      - by exists [].
      - apply Forall_cons in IHbs as [Hx IHbs].
        apply Forall_cons in Hnbs as [Hnx Hnbs].
        destruct (Hx Hnx) as (r & Hc & Hr & Hfr). simpl in Hc. rewrite Hc.
        destruct (IH IHbs Hnbs) as (bs' & -> & Hbs'). simpl.
        eexists. split; [done|]. by constructor. }
    destruct (IHb Hnb) as (body' & -> & Hnbody & Hfbody). simpl.
    eexists. split; [done|].
    assert (Forall flat_binding (bs' ≫= splice)
            ∧ Forall (λ y, normal y.2) (bs' ≫= splice)) as [Hf1 Hn1].
    { clear -Hbs'. induction Hbs' as [|x bs' [Hfx Hnx] _ [IH1 IH2]]; simpl.
      - by split.
      - destruct (splice_flat x Hfx Hnx). split; by apply Forall_app. }
    destruct (merge_body_flat _ _ Hf1 Hn1 Hfbody Hnbody). by split.
  - destruct (IHb Hn) as (r & Hr & Hnr & Hfr).
    exists (Lambda args r gen ref). split_and!; [|done..].
    simpl. unfold CollapseLet.transform_Lambda. by rewrite Hr.
  - pose proof Hn as [[[Hc Ht]%andb_True Hf]%andb_True _]%andb_True.
    exists (If c t f). split_and!; [|done|].
    + simpl. unfold CollapseLet.transform_If. by rewrite !collapse_atom.
    + change (flat c && flat t && flat f). rewrite !andb_True.
      split_and!; by apply flat_atom.
  - pose proof Hn as [Hvs%forallb_True _]%andb_True.
    exists (Tuple vs). split_and!; [|done|by apply flat_atoms].
    simpl. unfold CollapseLet.transform_Tuple. by rewrite collapse_atoms.
  - pose proof Hn as [[Hf Ha%forallb_True]%andb_True _]%andb_True.
    exists (Closure f a). split_and!; [done..|by apply flat_operands].
  - by apply andb_True in Hn as [_ ?].
Qed.

(** ** [a_normal] *)

Lemma a_normal_normal node r : a_normal node = Ok r → normal r ∧ flat r.
Proof.
  unfold a_normal.
  destruct (transform _ _ _ _) as [[[e bs] g]|e] eqn:H; [|done].
  apply transform_good in H as (Hn & _).
  destruct (collapse_normal e Hn) as (r' & -> & Hr). by intros [= <-].
Qed.






(** *** The bound on the recursion is never reached *)

Lemma safe_ret {A} (a : A) : safe (mret a).
Proof. by intros g. Qed.

Lemma safe_raise {A} e : e ≠ OutOfFuel → safe (raise (A := A) e).
Proof. intros He g [=]. done. Qed.

Lemma safe_lift {A} (r : result A) : r ≠ Raise OutOfFuel → safe (lift r).
Proof.
  intros Hr g. unfold lift. destruct r; [done|]. intros [= ->]. by apply Hr.
Qed.

Lemma safe_bind {A B} (m : M A) (f : A → M B) :
  safe m → (∀ a, safe (f a)) → safe (m ≫= f).
Proof.
  intros Hm Hf g. unfold mbind, M_bind.
  destruct (m g) as [[a g1]|e] eqn:E; [apply Hf|].
  intros [= ->]. by apply (Hm g).
Qed.

(** The same when the rest depends on what the first part returned. *)
Lemma safe_bind_val {A B} (m : M A) (f : A → M B) :
  safe m → (∀ a g g1, m g = Ok (a, g1) → safe (f a)) → safe (m ≫= f).
Proof.
  intros Hm Hf g. unfold mbind, M_bind.
  destruct (m g) as [[a g1]|e] eqn:E; [by eapply Hf|].
  intros [= ->]. by apply (Hm g).
Qed.

Lemma safe_gen_sym name : safe (gen_sym name).
Proof. by intros [g|]. Qed.

Lemma safe_gen_call name : safe (gen_call name).
Proof. by intros [g|]. Qed.

Lemma safe_stash st res name : safe (stash st res name).
Proof.
  destruct st; simpl; [apply safe_ret|].
  apply safe_bind; [apply safe_gen_sym|]. intros sym. apply safe_ret.
Qed.

Lemma safe_mapM {A B} (f : A → M B) l :
  (∀ x, x ∈ l → safe (f x)) → safe (mapM f l).
Proof.
  induction l as [|x l IH]; intros Hf; simpl; [apply safe_ret|].
  apply safe_bind; [apply Hf; set_solver|]. intros y.
  apply safe_bind; [apply IH; intros; apply Hf; set_solver|].
  intros ys. apply safe_ret.
Qed.

Lemma height_pos e : 1 ≤ height e.
Proof. destruct e; simpl; lia. Qed.

Lemma height_elem (x : Expr) l :
  x ∈ l → height x ≤ foldr (λ x m, height x `max` m) 0 l.
Proof.
  induction l as [|y l IH]; intros Hx; [by apply elem_of_nil in Hx|].
  simpl. apply elem_of_cons in Hx as [->|Hx]; [lia|]. apply IH in Hx. lia.
Qed.

Lemma height_elem_binding (x : binding) l :
  x ∈ l → height x.2 ≤ foldr (λ x m, height x.2 `max` m) 0 l.
Proof.
  induction l as [|y l IH]; intros Hx; [by apply elem_of_nil in Hx|].
  simpl. apply elem_of_cons in Hx as [->|Hx]; [lia|]. apply IH in Hx. lia.
Qed.

Lemma base_name_of_fuel f : base_name_of f ≠ Raise OutOfFuel.
Proof.
  destruct f; simpl; try done.
  destruct (string_mem _ _); [done|]. by destruct (startswith _ _).
Qed.

Section methods_safe.
Variable rec : Expr → Stash → M (Expr * list binding).
Variable n : nat.
Hypothesis Hrec : ∀ node st, height node ≤ n → safe (rec node st).

Lemma safe_transform_tagged base l :
  (∀ p, p ∈ l → height p.1 ≤ n) → safe (transform_tagged rec base l).
Proof.
  induction l as [|[arg tag] l IH]; intros Hl; simpl; [apply safe_ret|].
  apply safe_bind.
  { specialize (Hl (arg, tag)). destruct tag; apply Hrec, Hl; set_solver. }
  intros [new_arg bs]. apply safe_bind.
  { apply IH. intros p Hp. apply Hl. set_solver. }
  intros [new_args bs']. apply safe_ret.
Qed.

Lemma safe_transform_arguments args constructor st base_name tags :
  (∀ x, x ∈ args → height x ≤ n) →
  (∀ l, constructor l ≠ Raise OutOfFuel) →
  safe (transform_arguments rec args constructor st base_name tags).
Proof.
  intros Hargs Hcons. unfold transform_arguments.
  apply safe_bind_val.
  { destruct base_name; [apply safe_ret|].
    destruct args as [|f args]; [by apply safe_raise|].
    apply safe_bind; [apply Hrec, Hargs; set_solver|].
    intros [f' bs]. apply safe_bind.
    - apply safe_lift, base_name_of_fuel.
    - intros b. apply safe_ret. }
  intros [[[new_args0 bindings0] args'] base] g g1 Hfn. cbv zeta.
  assert (args' ⊆ args) as Hsub.
  { destruct base_name.
    - inv_M Hfn. done.
    - destruct args as [|f args]; [inv_M Hfn|].
      inv_bind Hfn as [f' bs'] g5 Hf. inv_bind Hfn as bn g6 Hbn.
      inv_M Hbn. inv_M Hfn. set_solver. }
  apply safe_bind.
  { apply safe_transform_tagged. intros [arg tag] Hin.
    apply elem_of_zip_l in Hin. apply Hargs. set_solver. }
  intros [new_args bindings1]. apply safe_bind; [by apply safe_lift|].
  intros app. apply safe_bind; [|intros; apply safe_stash].
  destruct st; [|apply safe_ret].
  apply safe_bind; [apply safe_stash|]. intros [sym bs]. apply safe_ret.
Qed.

Lemma safe_transform_Let bindings body st :
  (∀ x, x ∈ bindings → height x.2 ≤ n) → height body ≤ n →
  safe (transform_Let rec bindings body st).
Proof.
  intros Hbs Hbody. unfold transform_Let. apply safe_bind.
  { apply safe_mapM. intros [s b] Hin. apply safe_bind.
    - apply Hrec, (Hbs (s, b) Hin).
    - intros [b' l]. apply safe_ret. }
  intros bs. apply safe_bind; [by apply Hrec|].
  intros [body' l]. apply safe_stash.
Qed.

Lemma safe_transform_Lambda args body gen ref st :
  height body ≤ n → safe (transform_Lambda rec args body gen ref st).
Proof.
  intros Hbody g. unfold transform_Lambda.
  destruct (rec body NoStash (Some gen)) as [[[body' l] gen']|e] eqn:E.
  - apply safe_stash.
  - intros [= ->]. by apply (Hrec body NoStash Hbody (Some gen)).
Qed.

Lemma safe_transform_Begin stmts st :
  (∀ x, x ∈ stmts → height x ≤ n) → safe (transform_Begin rec stmts st).
Proof.
  intros Hstmts. unfold transform_Begin.
  set (kept := filter _ _ ++ _).
  assert (∀ x, x ∈ kept → height x ≤ n) as Hkept.
  { intros x Hx. apply Hstmts. unfold kept in Hx.
    apply elem_of_app in Hx as [Hx|Hx].
    - apply list_elem_of_filter in Hx as [_ Hx].
      apply list_elem_of_In in Hx. apply list_elem_of_In. clear -Hx.
      induction stmts as [|y [|z l] IH]; simpl in *; [done..|].
      destruct Hx as [->|Hx]; [by left|right; by apply IH].
    - destruct (last stmts) as [y|] eqn:E; [|by apply elem_of_nil in Hx].
      apply list_elem_of_singleton in Hx as ->.
      by apply last_Some_elem_of. }
  assert (kept ≠ [] →
          safe (syms ← mapM (λ _, gen_call "_") kept;
                body ← match last syms with
                       | Some s => mret (Symbol s)
                       | None => raise IndexError
                       end;
                transform_Let rec (zip syms kept) body st)) as Hlet.
  { intros Hne. assert (1 ≤ n) as Hn.
    { destruct kept as [|x kept']; [done|].
      pose proof (height_pos x). specialize (Hkept x). 
      assert (x ∈ x :: kept') by set_solver. naive_solver lia. }
    apply safe_bind.
    { apply safe_mapM. intros. apply safe_gen_call. }
    intros syms. apply safe_bind_val.
    { destruct (last syms); [apply safe_ret|by apply safe_raise]. }
    intros body g g1 Hb. apply safe_transform_Let.
    - intros [s x] Hin. apply elem_of_zip_r in Hin. by apply Hkept.
    - destruct (last syms); [inv_M Hb; by simpl|inv_M Hb]. }
  destruct kept as [|stmt [|stmt' kept']].
  - simpl. apply safe_bind_val; [apply safe_ret|].
    intros syms g0 g1 Hs. inv_M Hs.
    apply safe_bind_val; [simpl; by apply safe_raise|].
    intros body g g2 Hb. simpl in Hb. inv_M Hb.
  - apply Hrec, Hkept. set_solver.
  - by apply Hlet.
Qed.

Lemma safe_dispatch node st :
  height node ≤ S n → safe (dispatch rec node st).
Proof.
  intros Hh. destruct node; simpl in Hh; simpl.
  - apply safe_transform_arguments.
    + intros x [->|Hx%height_elem]%elem_of_cons; lia.
    + by intros [|??].
  - apply safe_ret.
  - apply safe_ret.
  - apply safe_transform_Let; [|lia].
    intros x Hx%height_elem_binding. lia.
  - apply safe_transform_Lambda. lia.
  - apply safe_transform_arguments.
    + intros x Hx. repeat (apply elem_of_cons in Hx as [->|Hx]);
        [lia..|by apply elem_of_nil in Hx].
    + by intros [|? [|? [|? [|??]]]].
  - apply safe_transform_arguments; [|done].
    intros x Hx%height_elem. lia.
  - apply safe_transform_arguments.
    + intros x [->|Hx%height_elem]%elem_of_cons; lia.
    + by intros [|??].
  - apply safe_transform_Begin. intros x Hx%height_elem. lia.
Qed.
End methods_safe.

Lemma transform_safe fuel node st :
  height node ≤ fuel → safe (transform fuel node st).
Proof.
  revert node st. induction fuel as [|fuel IH]; intros node st Hh.
  - pose proof (height_pos node). lia.
  - apply (safe_dispatch _ fuel); [|done].
    intros node' st' Hh'. by apply IH.
Qed.

Lemma result_bind_fuel {A B} (m : result A) (f : A → result B) :
  m ≠ Raise OutOfFuel → (∀ a, f a ≠ Raise OutOfFuel) →
  m ≫= f ≠ Raise OutOfFuel.
Proof.
  intros Hm Hf. destruct m; [apply Hf|]. simpl. intros [= ->]. by apply Hm.
Qed.

Lemma mapM_result_fuel {A B} (f : A → result B) l :
  Forall (λ x, f x ≠ Raise OutOfFuel) l →
  mapM_result f l ≠ Raise OutOfFuel.
Proof.
  induction 1 as [|x l Hx _ IH]; simpl; [done|].
  apply result_bind_fuel; [done|]. intros y.
  by apply result_bind_fuel.
Qed.

Lemma collapse_fuel e : CollapseLet.transform e ≠ Raise OutOfFuel.
Proof.
  induction e as [f a IHf IHa|s|v|bs b IHbs IHb|args b gen ref IHb
                  |c t f IHc IHt IHf|vs IHvs|f a _ _|ss _]
    using Expr_nested_ind; try done.
  - simpl. unfold CollapseLet.transform_Apply.
    apply result_bind_fuel; [done|]. intros f'.
    apply result_bind_fuel; [by apply mapM_result_fuel|done].
  - rewrite collapse_Let_eq. unfold collapse_Let_spec.
    apply result_bind_fuel.
    { apply mapM_result_fuel. eapply Forall_impl; [done|].
      intros x Hx. by apply result_bind_fuel. }
    intros bs'. by apply result_bind_fuel.
  - simpl. unfold CollapseLet.transform_Lambda. by apply result_bind_fuel.
  - simpl. unfold CollapseLet.transform_If.
    apply result_bind_fuel; [done|]. intros c'.
    apply result_bind_fuel; [done|]. intros t'.
    by apply result_bind_fuel.
  - simpl. unfold CollapseLet.transform_Tuple.
    apply result_bind_fuel; [by apply mapM_result_fuel|done].
Qed.

(** The bound that [a_normal] puts on the recursion is never reached. *)
Lemma a_normal_fuel node : a_normal node ≠ Raise OutOfFuel.
Proof.
  unfold a_normal.
  destruct (transform _ _ _ _) as [[[e bs] g]|e] eqn:H.
  - apply collapse_fuel.
  - intros [= ->]. by eapply transform_safe in H.
Qed.

(** *** Names and the nested application *)


(** A generator does not mint a symbol that is known to it. *)
Lemma known_fresh gen s name : known gen s → s ≠ (GenSym_sym gen name).1.
Proof. intros [Hns|Hv] ->; simpl in *; [done|lia]. Qed.



(** *** [Begin] *)




Lemma transform_Begin_empty fuel st g :
  transform (S fuel) (Begin []) st g = Raise IndexError.
Proof. done. Qed.


(** ** The properties of the IR graph *)

(** C1.  Edge symmetry is an invariant of the mutations: from a store in
    which forward edges and [users] entries mirror each other, every
    sequence of calls to [set_succ], [set_app], [redirect] and [replace]
    that return leaves a store in which every forward edge [(role, B)]
    of a node [A] is recorded exactly once, as [(role, A)], in the users
    of [B], and every entry of a [users] set has its forward edge. *)
Theorem edge_symmetry_invariant σ g ms σ' g' :
  edge_symmetric σ →
  mutate_all (σ, g) ms = Some (σ', g') →
  (∀ a r b, succ_at σ' a r = Some b →
            ∃ nb, σ' !! b = Some nb ∧ (r, a) ∈ users nb ∧
                  user_entries nb r a = 1) ∧
  (∀ b nb r a, σ' !! b = Some nb → (r, a) ∈ users nb →
               succ_at σ' a r = Some b).
Proof.
  intros Hsym Hms.
  apply mutate_all_edge_symmetric in Hms; [|done]. simpl in Hms. split.
  - intros a r b Hab. apply Hms in Hab. unfold users_of in Hab.
    destruct (σ' !! b) as [nb|]; [|set_solver].
    exists nb. split_and!; [done..|]. by apply user_entries_elem.
  - intros b nb r a Hb Hin. apply Hms. by rewrite (users_of_lookup _ _ _ Hb).
Qed.

Lemma edge_symmetry_invariant_witness :
  edge_symmetric example_nodes ∧
  mutate_all (example_nodes, example_graph) replaced_build
  = Some (built replaced_build, example_graph) ∧
  (∀ a r b, succ_at (built replaced_build) a r = Some b →
            ∃ nb, built replaced_build !! b = Some nb ∧ (r, a) ∈ users nb ∧
                  user_entries nb r a = 1) ∧
  (∀ b nb r a, built replaced_build !! b = Some nb → (r, a) ∈ users nb →
               succ_at (built replaced_build) a r = Some b).
Proof.
  split; [apply fresh_store_edge_symmetric|].
  split; [by vm_compute|].
  apply (edge_symmetry_invariant example_nodes example_graph replaced_build
           (built replaced_build) example_graph).
  - apply fresh_store_edge_symmetric.
  - by vm_compute.
Defined.

(** C3.  [toposort] leaves out a computation node that the output
    depends on.  After [replace(y, z)] the dead node [y] is still a user
    of [x]; the count of the users of [x] never reaches zero, and every
    run of [toposort] on this acyclic graph returns [z, out] without
    [x]. *)
Theorem toposort_drops_input_of_replaced_node :
  mutate_all (example_nodes, example_graph) replaced_build
  = Some (built replaced_build, example_graph) ∧
  edge_symmetric (built replaced_build) ∧
  acyclic (built replaced_build) ∧
  succ_at (built replaced_build) 1 (IN 0) = Some 4 ∧
  succ_at (built replaced_build) 4 (IN 0) = Some 2 ∧
  computation_node (built replaced_build) 2 ∧
  toposort (built replaced_build) example_graph = Ok [4; 1] ∧
  (∀ r, toposort_run (built replaced_build) example_graph r → r = Ok [4; 1]).
Proof.
  split_and!.
  - by vm_compute.
  - apply (built_edge_symmetric _ example_graph). by vm_compute.
  - apply replaced_acyclic.
  - by vm_compute.
  - by vm_compute.
  - eexists. split; by vm_compute.
  - by vm_compute.
  - apply replaced_runs.
Qed.

(** C4.  [toposort] does not raise on a cycle that does not pass through
    the output: with [out = f(x)], [x = f(y)], [y = f(x)] every run
    returns [out] alone. *)
Theorem toposort_misses_inner_cycle :
  mutate_all (example_nodes, example_graph) inner_cycle_build
  = Some (built inner_cycle_build, example_graph) ∧
  edge_symmetric (built inner_cycle_build) ∧
  succ_at (built inner_cycle_build) 1 (IN 0) = Some 2 ∧
  succ_at (built inner_cycle_build) 2 (IN 0) = Some 3 ∧
  succ_at (built inner_cycle_build) 3 (IN 0) = Some 2 ∧
  computation_node (built inner_cycle_build) 2 ∧
  computation_node (built inner_cycle_build) 3 ∧
  toposort (built inner_cycle_build) example_graph = Ok [1] ∧
  (∀ r, toposort_run (built inner_cycle_build) example_graph r → r = Ok [1]).
Proof.
  split_and!; try by vm_compute.
  - apply (built_edge_symmetric _ example_graph). by vm_compute.
  - eexists. split; by vm_compute.
  - eexists. split; by vm_compute.
  - apply inner_cycle_runs.
Qed.

(** C10.  When the output of a graph is not a computation node,
    [toposort] returns the empty list, whatever the rest of the store. *)
Theorem toposort_non_computation_output σ g out n :
  output g = Some out → σ !! out = Some n → is_computation n = false →
  toposort σ g = Ok [] ∧ ∀ r, toposort_run σ g r ↔ r = Ok [].
Proof. apply toposort_not_computation. Qed.

Lemma toposort_non_computation_output_witness :
  output example_graph = Some 1 ∧
  example_nodes !! 1 = Some (new_node (Some 0) (example_tag "out") NO_VALUE) ∧
  is_computation (new_node (Some 0) (example_tag "out") NO_VALUE) = false ∧
  toposort example_nodes example_graph = Ok [] ∧
  ∀ r, toposort_run example_nodes example_graph r ↔ r = Ok [].
Proof.
  split; [reflexivity|]. split; [by vm_compute|]. split; [reflexivity|].
  apply (toposort_non_computation_output example_nodes example_graph 1
           (new_node (Some 0) (example_tag "out") NO_VALUE)).
  - reflexivity.
  - by vm_compute.
  - reflexivity.
Defined.

(** C6, as stated, fails: redirecting a node onto itself is a no-op that
    leaves its users in place, and a node that uses itself has its own
    forward edge moved. *)
Lemma redirect_claim_counterexample :
  (edge_symmetric (built replaced_build) ∧
   users_of (built replaced_build) 2 ≠ ∅ ∧
   redirect (built replaced_build) 2 (Some 2) = Some (built replaced_build)) ∧
  (edge_symmetric (built self_loop_build) ∧
   succ_at (built self_loop_build) 2 FN = Some 2 ∧
   ∃ σ', redirect (built self_loop_build) 2 (Some 3) = Some σ' ∧
         succ_at σ' 2 FN = Some 3).
Proof.
  split; split_and!.
  - apply (built_edge_symmetric _ example_graph). by vm_compute.
  - by vm_compute.
  - by vm_compute.
  - apply (built_edge_symmetric _ example_graph). by vm_compute.
  - by vm_compute.
  - eexists. split; by vm_compute.
Qed.

(** C6, amended.  In an edge-symmetric store, for a node [A] and a node
    [B] other than [A], [A.redirect(B)] completes whatever the order in
    which the users are visited; afterwards every former user
    [(role, consumer)] of [A] has [B] at [role], [A] has no users, [B]
    has gained them, and the forward edges of [A] are unchanged at every
    role at which [A] did not use itself. *)
Theorem redirect_moves_users σ us a b :
  edge_symmetric σ → a ≠ b → b ∈ dom σ →
  us ≡ₚ elements (users_of σ a) →
  ∃ σ', redirect_in σ us a (Some b) = Some σ' ∧
        (∀ r n, (r, n) ∈ users_of σ a → succ_at σ' n r = Some b) ∧
        users_of σ' a = ∅ ∧
        users_of σ' b = users_of σ b ∪ users_of σ a ∧
        (∀ r, (r, a) ∉ users_of σ a → succ_at σ' a r = succ_at σ a r) ∧
        inputs_len σ' a = inputs_len σ a.
Proof.
  intros Hsym Hne Hb Hperm.
  assert (NoDup us) as Hnd by (rewrite Hperm; apply NoDup_elements).
  assert (∀ e, e ∈ us ↔ e ∈ users_of σ a) as Hus.
  { intros e. by rewrite Hperm elem_of_elements. }
  destruct (redirect_in_success σ us a b) as [σ' Hred]; [done..| |].
  { by intros e ?%Hus. }
  exists σ'. split; [done|].
  apply redirect_in_effect in Hred as (H1 & H2 & H3 & H4 & H5 & _); [|done..].
  split_and!; try done. intros r Hr. by apply H3.
Qed.

Lemma redirect_moves_users_witness :
  edge_symmetric (built replaced_build) ∧ 2 ≠ 3 ∧
  3 ∈ dom (built replaced_build) ∧
  ∃ σ', redirect (built replaced_build) 2 (Some 3) = Some σ' ∧
        (∀ r n, (r, n) ∈ users_of (built replaced_build) 2 →
                succ_at σ' n r = Some 3) ∧
        users_of σ' 2 = ∅.
Proof.
  split; [apply (built_edge_symmetric _ example_graph); by vm_compute|].
  split; [lia|]. split; [by vm_compute|].
  destruct (redirect_moves_users (built replaced_build)
              (elements (users_of (built replaced_build) 2)) 2 3)
    as (σ' & Hred & Hmoved & Hnone & _).
  - apply (built_edge_symmetric _ example_graph). by vm_compute.
  - lia.
  - by vm_compute.
  - reflexivity.
  - exists σ'. split; [|by split].
    rewrite -Hred. by vm_compute.
Defined.

(** C7, as stated, fails: without a function the inputs are left as they
    were, and a list of inputs is never made shorter. *)
Lemma set_app_claim_counterexample :
  (inputs <$> built two_inputs_build !! 1 = Some [Some 2; Some 3] ∧
   ∃ σ', set_app (built two_inputs_build) 1 None [Some 4] = Some σ' ∧
         fn <$> σ' !! 1 = Some None ∧
         inputs <$> σ' !! 1 = Some [Some 2; Some 3]) ∧
  (∃ σ', set_app (built two_inputs_build) 1 (Some 0) [Some 4] = Some σ' ∧
         inputs <$> σ' !! 1 = Some [Some 4; None]).
Proof.
  split; [split; [by vm_compute|]|]; eexists; split_and!; by vm_compute.
Qed.

(** C7, amended.  When [set_app(fn, inputs)] completes on a node with a
    function [fn] given, the node has [fn] as its function and, at every
    position, the given input as its input; the list of inputs keeps the
    length it had when the given list is shorter, with empty slots past
    the last given input.  Without a function ([fn] is [None]) only the
    function edge is cleared and the inputs stay as they were.  In an
    edge-symmetric store the users entries that name the node are then
    exactly its new forward edges. *)
Theorem set_app_retargets σ a s f ins σ' :
  σ !! a = Some s →
  set_app σ a f ins = Some σ' →
  ∃ s', σ' !! a = Some s' ∧ fn s' = f ∧
        match f with
        | Some _ =>
            (∀ i, mjoin (inputs s' !! i) = mjoin (ins !! i)) ∧
            length (inputs s') = length (inputs s) `max` occupied_len ins ∧
            (Forall is_Some ins → length (inputs s) ≤ length ins →
             inputs s' = ins)
        | None => inputs s' = inputs s
        end ∧
        (edge_symmetric σ →
         ∀ r b, (r, a) ∈ users_of σ' b ↔ node_succ s' r = Some b).
Proof.
  intros Ha Happ.
  assert (dom σ' = dom σ ∧ succ_at σ' a FN = f) as [Hd Hfn].
  { destruct f as [f|].
    - by apply (set_app_effect _ _ _ _ _ _ Ha) in Happ as (? & _ & _ & _ & ?).
    - by apply (set_app_None_effect _ _ _ _ _ Ha) in Happ as (? & _ & _ & ?). }
  assert (is_Some (σ' !! a)) as [s' Ha'].
  { apply elem_of_dom. rewrite Hd. by apply elem_of_dom. }
  exists s'. split; [done|].
  split; [by rewrite (succ_at_lookup _ _ _ _ Ha') in Hfn|].
  split.
  - destruct f as [f|].
    + apply (set_app_effect _ _ _ _ _ _ Ha) in Happ as (_ & Hin & Hlen & _).
      rewrite (inputs_len_lookup _ _ _ Ha') in Hlen.
      assert (∀ i, mjoin (inputs s' !! i) = mjoin (ins !! i)) as Hin'.
      { intros i. by rewrite -Hin (succ_at_lookup _ _ _ _ Ha'). }
      split_and!; [done..|].
      intros Hnodes Hle. apply inputs_eq; [|done].
      rewrite Hlen occupied_len_nodes //. lia.
    + apply (set_app_None_effect _ _ _ _ _ Ha) in Happ as (_ & Hs & Hlen & _).
      specialize (Hlen a).
      rewrite (inputs_len_lookup _ _ _ Ha) (inputs_len_lookup _ _ _ Ha') in Hlen.
      apply inputs_eq; [done|]. intros i.
      specialize (Hs a (IN i)).
      rewrite (succ_at_lookup _ _ _ _ Ha) (succ_at_lookup _ _ _ _ Ha') in Hs.
      apply Hs. by right.
  - intros Hsym r b.
    eapply commit_edge_symmetric in Hsym; [|exact Happ].
    by rewrite -Hsym (succ_at_lookup _ _ _ _ Ha').
Qed.

Lemma set_app_retargets_witness :
  example_nodes !! 1 = Some (new_node (Some 0) (example_tag "out") NO_VALUE) ∧
  set_app example_nodes 1 (Some 0) [Some 2; Some 3]
  = Some (built two_inputs_build) ∧
  ∃ s', built two_inputs_build !! 1 = Some s' ∧ fn s' = Some 0 ∧
        inputs s' = [Some 2; Some 3].
Proof.
  split; [by vm_compute|]. split; [by vm_compute|].
  destruct (set_app_retargets example_nodes 1
              (new_node (Some 0) (example_tag "out") NO_VALUE)
              (Some 0) [Some 2; Some 3] (built two_inputs_build))
    as (s' & Hs' & Hfn & (_ & _ & Hexact) & _).
  - by vm_compute.
  - by vm_compute.
  - exists s'. split_and!; [done..|].
    apply Hexact; [repeat constructor; eauto|simpl; lia].
Defined.

(** ** The properties of the A-normal transformation *)

(** C2.  Whenever [a_normal] returns, every operand of every [Apply],
    [If], [Tuple] and [Closure] node of the tree it returns is a
    [Symbol] or a [Value]. *)
Theorem a_normal_operands_atomic node r : a_normal node = Ok r → anf r.
Proof.
  intros [[Hanf _]%andb_True _]%a_normal_normal. done.
Qed.

Lemma a_normal_operands_atomic_witness :
  ∃ r, a_normal example_lambda = Ok r ∧ anf r.
Proof.
  eexists. split; [vm_compute; reflexivity|].
  apply (a_normal_operands_atomic example_lambda). vm_compute. reflexivity.
Defined.

(** C5.  On every tree that the A-normal transformer returns the Let
    collapser returns a tree in which no [Let] has a [Let] as the value
    of a binding or as its body.  On a [Let] it does what the spec says:
    the bindings are collapsed in order, a binding whose collapsed value
    is a [Let] is replaced by the bindings of that [Let] followed by the
    binding of its body, and a collapsed body that is a [Let] hands over
    its bindings, after the others, and its body. *)
Theorem collapse_let_flat fuel node st g e bs g' :
  ANormalTransformer.transform fuel node st g = Ok ((e, bs), g') →
  (∃ r, CollapseLet.transform e = Ok r ∧ flat r) ∧
  (∀ bindings body,
     CollapseLet.transform (Let bindings body)
     = collapse_Let_spec bindings body).
Proof.
  intros H. split; [|apply collapse_Let_eq].
  apply transform_good in H as (Hn & _).
  destruct (collapse_normal e Hn) as (r & Hr & _ & Hf). eauto.
Qed.

Lemma collapse_let_flat_witness :
  ∃ e bs g' r,
    ANormalTransformer.transform 5 example_let NoStash None
    = Ok ((e, bs), g') ∧
    CollapseLet.transform e = Ok r ∧ flat r ∧ flat e = false.
Proof.
  edestruct (collapse_let_flat 5 example_let NoStash None)
    as [(r & Hr & Hf) _]; [vm_compute; reflexivity|].
  eexists _, _, _, r. split; [vm_compute; reflexivity|].
  split; [exact Hr|]. split; [exact Hf|]. vm_compute. reflexivity.
Defined.




